(** * The field-validation engine of the PowerReviews demo

    A shallow embedding of [src/demo/power_reviews.ts] (the validator
    combinators and the [requiredFields] record hook) and of [src/utils]
    ([fold], [sequenceValidationT]), together with the parts of fp-ts and of
    the ECMAScript runtime these functions call into.

    Layout: JavaScript values first (strings as UTF-16 code units, numbers,
    regular expressions with their mutable [lastIndex]), then fp-ts'
    [Either], [ReadonlyArray] and [Apply] helpers, then the repository's own
    functions, then the theorems. *)

From Stdlib Require Import ZArith QArith Lia.
From stdpp Require Import gmap strings list.

Local Open Scope Z_scope.

(** ** JavaScript strings

    A JavaScript string is a sequence of UTF-16 code units; [String.length],
    [split("")] and the regular-expression engine (without the [u] flag) all
    work on code units. *)

Definition char16 : Type := N.
Definition jsstring : Type := list char16.

(** An ASCII literal as a JavaScript string. *)
Fixpoint str (s : string) : jsstring :=
  match s with
  | EmptyString => []
  | String a rest => Ascii.N_of_ascii a :: str rest
  end.

Definition isDigit (c : char16) : bool := ((48 <=? c) && (c <=? 57))%N.

(** [StrWhiteSpaceChar] of ECMA-262: WhiteSpace (TAB, VT, FF, ZWNBSP and the
    code points of category Zs) and LineTerminator (LF, CR, LS, PS). *)
Definition isStrWhiteSpaceChar (c : char16) : bool :=
  ((c =? 9) || (c =? 10) || (c =? 11) || (c =? 12) || (c =? 13) || (c =? 32)
   || (c =? 160) || (c =? 5760) || ((8192 <=? c) && (c <=? 8202))
   || (c =? 8232) || (c =? 8233) || (c =? 8239) || (c =? 8287)
   || (c =? 12288) || (c =? 65279))%N.

(** ** JavaScript numbers

    A double is NaN, an infinity, or a finite dyadic rational; comparisons
    and [% 1] are exact on doubles, so finite values are kept as rationals
    (the two zeros are not told apart: no function below distinguishes
    them). *)

Inductive number : Type :=
| NaN
| PosInf
| NegInf
| Fin (q : Q).

(** [a <= b]; every comparison with NaN is false. *)
Definition num_le (a b : number) : bool :=
  match a, b with
  | NaN, _ | _, NaN => false
  | NegInf, _ => true
  | _, PosInf => true
  | PosInf, _ => false
  | _, NegInf => false
  | Fin x, Fin y => Qle_bool x y
  end.

(** [a >= b] *)
Definition num_ge (a b : number) : bool := num_le b a.

(** [v % 1 === 0]: the remainder of an infinity or of NaN is NaN; the
    remainder of a finite value is zero exactly when the value is whole. *)
Definition rem1_is_zero (v : number) : bool :=
  match v with
  | Fin q => Z.rem (Qnum q) (Zpos (Qden q)) =? 0
  | _ => false
  end.

Definition num_of_Z (z : Z) : number := Fin (inject_Z z).
Definition num_of_nat (n : nat) : number := num_of_Z (Z.of_nat n).

(** The literal [0.01] denotes the double nearest to 1/100, which is
    5764607523034235 / 2^59. *)
Definition lit_0_01 : number := Fin (5764607523034235 # 576460752303423488).

(** The checksum arithmetic only ever sees NaN or integers far below 2^53,
    where double arithmetic is exact integer arithmetic: [None] is NaN. *)
Definition intnum : Type := option Z.

Definition int_add (a b : intnum) : intnum :=
  match a, b with Some x, Some y => Some (x + y) | _, _ => None end.
Definition int_sub (a b : intnum) : intnum :=
  match a, b with Some x, Some y => Some (x - y) | _, _ => None end.
Definition int_mul (a b : intnum) : intnum :=
  match a, b with Some x, Some y => Some (x * y) | _, _ => None end.
(** [a % b] takes the sign of the dividend; [x % 0] is NaN. *)
Definition int_rem (a b : intnum) : intnum :=
  match a, b with
  | Some x, Some y => if y =? 0 then None else Some (Z.rem x y)
  | _, _ => None
  end.
(** [a !== b] on numbers: NaN differs from everything, itself included. *)
Definition int_strict_ne (a b : intnum) : bool :=
  match a, b with Some x, Some y => negb (x =? y) | _, _ => true end.

(** [Number(s)] for a string [s] of at most one code unit (all that
    [split("")] produces): the empty string and a white-space character
    convert to 0, a decimal digit to its value, anything else to NaN. *)
Definition Number_of_unit (c : char16) : intnum :=
  if isDigit c then Some (Z.of_N c - 48)
  else if isStrWhiteSpaceChar c then Some 0
  else None.

(** ** Regular expressions

    The source only uses patterns of the shape "between [lo] and [hi]
    characters of one class, greedy": [\d{12,13}] and [[^ ]+]. *)

Record pattern : Type := Repeat {
  cls : char16 -> bool;
  lo : nat;
  hi : option nat
}.

(** How many leading code units of [s] belong to the class [c]. *)
Fixpoint run_length (c : char16 -> bool) (s : jsstring) : nat :=
  match s with
  | x :: rest => if c x then Datatypes.S (run_length c rest) else 0%nat
  | [] => 0%nat
  end.

(** The matcher of a pattern at index [i] of [S]: the end index of the
    match, or [None]. *)
Definition matcher (p : pattern) (S : jsstring) (i : nat) : option nat :=
  let run := run_length (cls p) (drop i S) in
  let n := match hi p with Some h => Nat.min run h | None => run end in
  if (lo p <=? n)%nat then Some (i + n)%nat else None.

(** A RegExp object: its pattern and flags never change, [lastIndex] does. *)
Record RegExp : Type := mkRegExp {
  source : pattern;
  global : bool;
  sticky : bool;
  lastIndex : nat
}.

Definition set_lastIndex (R : RegExp) (i : nat) : RegExp :=
  mkRegExp (source R) (global R) (sticky R) i.

(** The search loop of RegExpBuiltinExec: try the matcher at [i], [i+1],
    ... for [fuel] positions. *)
Fixpoint search (p : pattern) (S : jsstring) (i fuel : nat) : option nat :=
  match fuel with
  | O => None
  | Datatypes.S k =>
      match matcher p S i with
      | Some e => Some e
      | None => search p S (Datatypes.S i) k
      end
  end.

(** [R.test(S)]: RegExpBuiltinExec of ECMA-262, returning whether a match
    was found together with the updated object. *)
Definition test (R : RegExp) (S : jsstring) : bool * RegExp :=
  let stateful := global R || sticky R in
  let start := if stateful then lastIndex R else 0%nat in
  let found :=
    if (length S <? start)%nat then None
    else if sticky R then matcher (source R) S start
    else search (source R) S start (Datatypes.S (length S) - start) in
  match found with
  | Some e => (true, if stateful then set_lastIndex R e else R)
  | None => (false, if stateful then set_lastIndex R 0 else R)
  end.

(** A regular-expression literal evaluates to a fresh object whose
    [lastIndex] is 0. *)
Definition regexp_literal (p : pattern) (g : bool) : RegExp :=
  mkRegExp p g false 0.

(** [/\d{12,13}/] and [/[^ ]+/] *)
Definition pat_digits_12_13 : pattern := Repeat isDigit 12 (Some 13%nat).
Definition pat_no_space_plus : pattern :=
  Repeat (fun c => negb (c =? 32)%N) 1 None.

(** ** fp-ts: Either, ReadonlyArray, Option *)

Module E.

Inductive Either (L A : Type) : Type :=
| Left (e : L)
| Right (a : A).
Arguments Left {L A} e.
Arguments Right {L A} a.

Definition fromPredicate {L A} (predicate : A -> bool) (onFalse : A -> L)
    (a : A) : Either L A :=
  if predicate a then Right a else Left (onFalse a).

Definition map {L A B} (f : A -> B) (fa : Either L A) : Either L B :=
  match fa with Left e => Left e | Right a => Right (f a) end.

Definition chain {L A B} (f : A -> Either L B) (ma : Either L A)
    : Either L B :=
  match ma with Left e => Left e | Right a => f a end.

Definition mapLeft {L G A} (f : L -> G) (fa : Either L A) : Either G A :=
  match fa with Left e => Left (f e) | Right a => Right a end.

Definition isLeft {L A} (ma : Either L A) : bool :=
  match ma with Left _ => true | Right _ => false end.

End E.

Module RA.

(** [RA.head] returns the first element, if any. *)
Definition head {A} (as_ : list A) : option A :=
  match as_ with [] => None | a :: _ => Some a end.

(** [RA.dropRight(n)] *)
Definition dropRight {A} (n : nat) (as_ : list A) : list A :=
  take (length as_ - n) as_.

(** [RA.partitionWithIndex]: the loop pushes every element whose predicate
    holds onto [right] and every other element onto [left]; the pair is
    [(left, right)]. *)
Fixpoint partitionWithIndex_from {A} (predicateWithIndex : nat -> A -> bool)
    (i : nat) (as_ : list A) : list A * list A :=
  match as_ with
  | [] => ([], [])
  | a :: rest =>
      let '(ls, rs) :=
        partitionWithIndex_from predicateWithIndex (Datatypes.S i) rest in
      if predicateWithIndex i a then (ls, a :: rs)
      else (a :: ls, rs)
  end.

Definition partitionWithIndex {A} (predicateWithIndex : nat -> A -> bool)
    (as_ : list A) : list A * list A :=
  partitionWithIndex_from predicateWithIndex 0 as_.

(** [RA.reduce(b, f)] is a left fold. *)
Definition reduce {A B} (b : B) (f : B -> A -> B) (fa : list A) : B :=
  fold_left f fa b.

End RA.

Module O.
Definition getOrElse {A} (onNone : unit -> A) (ma : option A) : A :=
  match ma with Some a => a | None => onNone tt end.
End O.

(** [Str.split("")] followed by [RA.map(Number)]: [split] cuts the string
    into its code units, and fp-ts returns the one-element array holding the
    string itself when the native result is empty, which happens for the
    empty string only; [Number("")] is 0. *)
Definition split_then_Number (s : jsstring) : list intnum :=
  match s with
  | [] => [Some 0]
  | _ => List.map Number_of_unit s
  end.

(** [f |> g] is one stage of fp-ts' [pipe]. *)
Notation "x |> f" := (f x) (at level 45, left associativity, only parsing).

(** ** Messages and validation results *)

Inductive Severity : Type := error | warn.
Inductive Stage : Type := validate.

(** A message text: a string literal is one [TStr]; a template literal keeps
    its interpolated numbers unrendered. *)
Inductive text_part : Type :=
| TStr (s : string)
| TNum (n : number).

(** [new FF.Message(message, level, stage)] *)
Record Message : Type := mkMessage {
  message : list text_part;
  level : Severity;
  stage : Stage
}.

(** [ValidationResult<T>]: every validator builds it as [E.right(value)] or
    [E.left([message])], and the sequencer combines it with the semigroup of
    non-empty arrays of messages, so it is [Either<NonEmptyArray<Message>, T>].
    Non-emptiness is a matter of the TypeScript type only; at run time the
    left side is an array. *)
Definition ValidationResult (T : Type) : Type := E.Either (list Message) T.

(** [Lazy<A>] is a function of no argument. *)
Definition Lazy (A : Type) : Type := unit -> A.

(** ** Field validations ([src/demo/power_reviews.ts]) *)

Definition validateMaxLength (len : number) (value : jsstring)
    : Lazy (ValidationResult jsstring) :=
  fun _ =>
    if num_le (num_of_nat (length value)) len
    then E.Right value
    else E.Left [mkMessage
                   [TStr "Cannot be more than "; TNum len; TStr " characters."]
                   warn validate].

Definition validateWholeNumber (value : number)
    : Lazy (ValidationResult number) :=
  fun _ =>
    if rem1_is_zero value
    then E.Right value
    else E.Left [mkMessage [TStr "Whole numbers only."] error validate].

Definition validateRangeInclusive (min max : number) (value : number)
    : Lazy (ValidationResult number) :=
  fun _ =>
    if num_ge value min && num_le value max
    then E.Right value
    else E.Left [mkMessage
                   [TStr "Value must be between "; TNum min; TStr " and ";
                    TNum max; TStr "."]
                   error validate].

(** [validateRegex(regex)(value)]: the thunk closes over the RegExp object it
    was given, and invoking it calls [regex.test], which reads and writes
    that object's [lastIndex]. The object is threaded explicitly: the thunk
    for [value] takes the object as it is when invoked and returns, next to
    the result, the object as it leaves it. *)
Definition validateRegex (value : jsstring) (regex : RegExp)
    : ValidationResult jsstring * RegExp :=
  let '(matched, regex') := test regex value in
  (if matched
   then E.Right value
   else E.Left [mkMessage [TStr "Value does not meet required format."]
                  warn validate],
   regex').

Definition validatePositive (value : number)
    : Lazy (ValidationResult number) :=
  fun _ =>
    if num_ge value lit_0_01
    then E.Right value
    else E.Left [mkMessage [TStr "Value must be at least 1 cent."]
                   error validate].

(** The checksum stage (the function given to [E.chain]). *)
Definition checksumStage (upcOrEan : jsstring) : E.Either string jsstring :=
  let allDigits := split_then_Number upcOrEan in
  let checksumDigit :=
    rev allDigits |> RA.head |> O.getOrElse (fun _ => Some 0) in
  let '(evenIndices, oddIndices) :=
    allDigits |> RA.dropRight 1
              |> RA.partitionWithIndex (fun idx _ => (idx mod 2 =? 0)%nat) in
  let sumEvens := RA.reduce (Some 0) int_add evenIndices in
  let sumOdds := RA.reduce (Some 0) int_add oddIndices in
  let remainder :=
    int_rem (int_add (int_mul sumEvens (Some 3)) sumOdds) (Some 10) in
  if int_strict_ne (int_sub (Some 10) remainder) checksumDigit
  then E.Left "Invalid UPC or EAN."%string
  else E.Right upcOrEan.

(** The regular-expression literal sits inside the predicate, so every
    invocation tests a fresh object and discards it. *)
Definition validateUpcOrEan (value : jsstring)
    : Lazy (ValidationResult jsstring) :=
  fun _ =>
    value
    |> E.fromPredicate
         (fun upcOrEan =>
            fst (test (regexp_literal pat_digits_12_13 true) upcOrEan))
         (fun _ => "Must be 12 or 13 digits."%string)
    |> E.map (fun upcOrEan =>
                (* any 12-digit UPC can be converted into a 13-digit EAN *)
                if (length upcOrEan =? 12)%nat
                then str "0" ++ upcOrEan
                else upcOrEan)
    |> E.chain checksumStage
    |> E.mapLeft (fun msg => [mkMessage [TStr msg] error validate]).

(** ** The applicative sequencer ([src/utils]) *)

Module NEA.
(** [NEA.getSemigroup().concat] is [first.concat(second)]. *)
Definition concat {A} (first second : list A) : list A := first ++ second.
End NEA.

Module Ap.

(** [E.getApplicativeValidation(SE).ap] *)
Definition ap {L A B} (SE_concat : L -> L -> L)
    (fab : E.Either L (A -> B)) (fa : E.Either L A) : E.Either L B :=
  match fab with
  | E.Left e1 =>
      match fa with
      | E.Left e2 => E.Left (SE_concat e1 e2)
      | E.Right _ => E.Left e1
      end
  | E.Right f =>
      match fa with
      | E.Left e2 => E.Left e2
      | E.Right a => E.Right (f a)
      end
  end.

(** The type of a tuple constructor still waiting for [n] arguments. *)
Fixpoint nary (A : Type) (n : nat) : Type :=
  match n with
  | O => list A
  | Datatypes.S n' => A -> nary A n'
  end.

(** [curried(tuple, n, acc)]: takes one more argument [x]; with none left
    to wait for it returns the tuple [acc ++ [x]], otherwise the
    constructor that still waits for [n - 1] arguments. *)
Fixpoint curried {A} (n : nat) (acc : list A) : A -> nary A n :=
  match n return A -> nary A n with
  | O => fun x => acc ++ [x]
  | Datatypes.S n' => fun x => curried n' (acc ++ [x])
  end.

(** The [for] loop of [sequenceT]: [fas = F.ap(fas, args[i])]. *)
Fixpoint sequenceT_loop {L A} (SE_concat : L -> L -> L)
    (args : list (E.Either L A))
    : E.Either L (nary A (length args)) -> E.Either L (list A) :=
  match args with
  | [] => fun fas => fas
  | fa :: rest => fun fas => sequenceT_loop SE_concat rest (ap SE_concat fas fa)
  end.

(** [sequenceT(F)(args0, ...args)]: its type asks for at least one
    argument. With [len] arguments in all, [getTupleConstructor(len)] is
    [curried(tuple, len - 1, [])] (the table it keeps only caches these
    closures), and it is mapped over the first argument before the loop
    applies the others. *)
Definition sequenceT {L A} (SE_concat : L -> L -> L)
    (args0 : E.Either L A) (args : list (E.Either L A))
    : E.Either L (list A) :=
  sequenceT_loop SE_concat args (E.map (curried (length args) []) args0).

End Ap.

Definition sequenceValidationT {T} (r : ValidationResult T)
    (rs : list (ValidationResult T)) : ValidationResult (list T) :=
  Ap.sequenceT NEA.concat r rs.

(** Modelled from the spec: [runValidations] is exported by [src/utils] but
    its text is not part of the sources at hand. Sections 4.2 and 9 of the
    specification describe it as an explicit fold over the given results
    (one or more) that keeps the last success value while everything
    succeeds and concatenates the issues of the failing results. *)
Definition accumulate {T} (acc r : ValidationResult T) : ValidationResult T :=
  match acc, r with
  | E.Right _, E.Right v => E.Right v
  | E.Right _, E.Left issues => E.Left issues
  | E.Left issues, E.Right _ => E.Left issues
  | E.Left issues1, E.Left issues2 => E.Left (issues1 ++ issues2)
  end.

Definition runValidations {T} (r : ValidationResult T)
    (rs : list (ValidationResult T)) : ValidationResult T :=
  fold_left accumulate rs r.

(** ** Records and record hooks *)

(** A raw field value. *)
Inductive value : Type :=
| VNull
| VUndefined
| VStr (s : jsstring)
| VNum (n : number)
| VBool (b : bool).

(** An annotation on a record: field name, message, severity. *)
Record Annotation : Type := mkAnnotation {
  ann_field : string;
  ann_message : string;
  ann_level : Severity
}.

(** The record class of [@flatfile/hooks], of which the sources only show
    the calls [get] and [addError]: the field values by name, and the
    annotations in the order they were added. Section 6 of the
    specification gives [get(fieldName) -> value] and a mutating append of
    (field name, message, severity); the class guards both by a check that
    the record has the field. *)
Record FlatfileRecord : Type := mkRecord {
  data : gmap string value;
  info : list Annotation
}.

(** Code that mutates the record it was handed: a state transformer. *)
Definition Hook (A : Type) : Type := FlatfileRecord -> A * FlatfileRecord.

#[export] Instance Hook_ret : MRet Hook := fun A a x => (a, x).
#[export] Instance Hook_bind : MBind Hook :=
  fun A B k m x => let '(a, x') := m x in k a x'.

(** [verifyField]: whether the record has the field as an own property
    (whatever its value, null and undefined included); when it has not, the
    class logs "Record does not have field" and goes on. *)
Definition verifyField (fieldName : string) (x : FlatfileRecord) : bool :=
  match data x !! fieldName with Some _ => true | None => false end.

(** [get] reads the field; a field the record does not have reads as
    null. *)
Definition get (fieldName : string) : Hook value :=
  fun x => (default VNull (data x !! fieldName), x).

(** [addError] appends the annotation, with level error, when the record has
    the field, and does nothing when it has not. *)
Definition addError (fieldName : string) (msg : string) : Hook unit :=
  fun x =>
    if verifyField fieldName x
    then (tt, mkRecord (data x)
                (info x ++ [mkAnnotation fieldName msg error]))
    else (tt, x).

(** Modelled from the spec: [G.isNil] of [src/typeGuards], absent from the
    sources at hand; it holds of null and undefined. *)
Definition isNil (v : value) : bool :=
  match v with VNull | VUndefined => true | _ => false end.

(** What a call on the record evaluates to: [undefined], the reference to
    the record itself, or an array of such values. *)
#[warnings="-register-all"]
Inductive jsresult : Type :=
| Undefined
| TheRecord
| Array (elements : list jsresult).

Definition requiredFields : Hook jsresult :=
  page_id ← get "page_id";
  _ ← (if isNil page_id
       then addError "page_id" "Field is required."
       else mret tt);
  mret TheRecord.

(** [fns.map((f) => f(x))]: [Array.prototype.map] calls [f] on the elements
    in index order and collects what the calls return. *)
Fixpoint map_calls (fns : list (Hook jsresult)) : Hook (list jsresult) :=
  match fns with
  | [] => mret []
  | f :: rest =>
      r ← f;
      rs ← map_calls rest;
      mret (r :: rs)
  end.

Definition fold (fns : list (Hook jsresult)) : Hook jsresult :=
  rs ← map_calls fns;
  mret (Array rs).

(** ** Field computations and the record hook of the sheets *)

(** [Str.trim] is [s.trim()]: TrimString of ECMA-262 removes the leading and
    the trailing white space and line terminators, the same characters as
    [StrWhiteSpaceChar]. *)
Fixpoint trimStart (s : jsstring) : jsstring :=
  match s with
  | [] => []
  | c :: rest => if isStrWhiteSpaceChar c then trimStart rest else s
  end.

Definition trimEnd (s : jsstring) : jsstring := rev (trimStart (rev s)).

Definition trim (s : jsstring) : jsstring := trimEnd (trimStart s).

(** [recordCompute] of both sheets: [fold(requiredFields)(record)]. *)
Definition recordCompute : Hook jsresult := fold [requiredFields].

(** * Vocabulary of the properties *)

(** The value of a decimal digit, and strings made of digits only. *)
Definition digit_value (c : char16) : Z := Z.of_N c - 48.

Definition all_digits (s : jsstring) : bool := forallb isDigit s.

(** The elements at even and at odd positions, counted from 0. *)
Fixpoint uninterleave {A} (l : list A) : list A * list A :=
  match l with
  | [] => ([], [])
  | x :: rest => let '(evens, odds) := uninterleave rest in (x :: odds, evens)
  end.

Definition at_even {A} (l : list A) : list A := fst (uninterleave l).
Definition at_odd {A} (l : list A) : list A := snd (uninterleave l).

Definition sumZ (l : list Z) : Z := fold_right Z.add 0 l.

(** What the input becomes before the checksum stage. *)
Definition pad13 (s : jsstring) : jsstring :=
  if (length s =? 12)%nat then str "0" ++ s else s.

Definition invalid_upc : list Message :=
  [mkMessage [TStr "Invalid UPC or EAN."] error validate].
Definition malformed_upc : list Message :=
  [mkMessage [TStr "Must be 12 or 13 digits."] error validate].

(** The expected check digit as section 4.1 of the specification words it:
    three times the digits at even positions plus the digits at odd
    positions. *)
Definition stated_expected_check_digit (digits : list Z) : Z :=
  let sum_even := sumZ (at_even (take 12 digits)) in
  let sum_odd := sumZ (at_odd (take 12 digits)) in
  let remainder := (3 * sum_even + sum_odd) mod 10 in
  (10 - remainder) mod 10.

(** "The validator fails exactly when the expected check digit, computed as
    stated, differs from the last digit." *)
Definition fails_as_stated (s : jsstring) : Prop :=
  let digits := List.map digit_value (pad13 s) in
  E.isLeft (validateUpcOrEan s tt) = true <->
  stated_expected_check_digit digits <> List.nth 12 digits 0.

(** The GTIN-13 check digit of 12 digits (GS1 General Specifications):
    weights 1 and 3 alternate from the left, and the check digit brings the
    weighted sum up to a multiple of 10. *)
Definition gtin13_check_digit (body : list Z) : Z :=
  (10 - (sumZ (at_even body) + 3 * sumZ (at_odd body)) mod 10) mod 10.

Definition valid_gtin13 (c : jsstring) : Prop :=
  length c = 13%nat /\ all_digits c = true /\
  List.nth 12 (List.map digit_value c) 0 =
  gtin13_check_digit (take 12 (List.map digit_value c)).

(** The UPC-A check digit of 11 digits: weights 3 and 1 alternate from the
    left. *)
Definition upca_check_digit (body : list Z) : Z :=
  (10 - (3 * sumZ (at_even body) + sumZ (at_odd body)) mod 10) mod 10.

Definition valid_upc12 (u : jsstring) : Prop :=
  length u = 12%nat /\ all_digits u = true /\
  List.nth 11 (List.map digit_value u) 0 =
  upca_check_digit (take 11 (List.map digit_value u)).

(** The value holds 12 consecutive digits somewhere. *)
Definition has_digit_run (s : jsstring) : Prop :=
  exists pre run post,
    s = pre ++ run ++ post /\ length run = 12%nat /\ all_digits run = true.

Definition issuesOf {T} (r : ValidationResult T) : list Message :=
  match r with E.Left issues => issues | E.Right _ => [] end.

(** The failing results among [rs], in input order. *)
Definition failing {T} (rs : list (ValidationResult T))
    : list (ValidationResult T) :=
  List.filter E.isLeft rs.

(** The issues of the failing results, concatenated in input order. *)
Definition failure_issues {T} (rs : list (ValidationResult T))
    : list Message :=
  List.concat (List.map issuesOf (failing rs)).

(** The success values among [rs], in input order. *)
Fixpoint successes {T} (rs : list (ValidationResult T)) : list T :=
  match rs with
  | [] => []
  | E.Right v :: rest => v :: successes rest
  | E.Left _ :: rest => successes rest
  end.

Definition all_ok {T} (rs : list (ValidationResult T)) : bool :=
  forallb (fun r => negb (E.isLeft r)) rs.

(** A tuple constructor that has taken the arguments [acc] and waits for
    [n] more. *)
Definition partial {T} (n : nat) (acc : list T) : Ap.nary T n :=
  match n return Ap.nary T n with
  | O => acc
  | Datatypes.S n' => Ap.curried n' acc
  end.

(** The record after the rules ran on it one after the other. *)
Definition applied_in_order (fns : list (Hook jsresult)) (x : FlatfileRecord)
    : FlatfileRecord :=
  fold_left (fun x' f => snd (f x')) fns x.

(** What the rules returned, each run on the record the earlier ones left. *)
Fixpoint returned_in_order (fns : list (Hook jsresult)) (x : FlatfileRecord)
    : list jsresult :=
  match fns with
  | [] => []
  | f :: rest => fst (f x) :: returned_in_order rest (snd (f x))
  end.

(** "[fold(...fns)(r)] returns the record itself." *)
Definition returns_the_record (fns : list (Hook jsresult))
    (r : FlatfileRecord) : Prop :=
  fst (fold fns r) = TheRecord.

(** One invocation of a validator built by one of the six combinators. *)
Inductive invocation : Type :=
| MaxLength (len : number) (value : jsstring)
| WholeNumber (value : number)
| RangeInclusive (min max value : number)
| RegexMatch (regex : RegExp) (value : jsstring)
| Positive (value : number)
| UpcOrEan (value : jsstring).

Definition failure_of {T} (r : ValidationResult T) : option (list Message) :=
  match r with E.Left issues => Some issues | E.Right _ => None end.

(** The issues of the invocation, when it fails. *)
Definition invoke (c : invocation) : option (list Message) :=
  match c with
  | MaxLength len value => failure_of (validateMaxLength len value tt)
  | WholeNumber value => failure_of (validateWholeNumber value tt)
  | RangeInclusive min max value =>
      failure_of (validateRangeInclusive min max value tt)
  | RegexMatch regex value => failure_of (fst (validateRegex value regex))
  | Positive value => failure_of (validatePositive value tt)
  | UpcOrEan value => failure_of (validateUpcOrEan value tt)
  end.

Definition fixed_severity (c : invocation) : Severity :=
  match c with
  | MaxLength _ _ | RegexMatch _ _ => warn
  | _ => error
  end.

(** A string that does not begin, respectively end, with white space. *)
Definition starts_clean (s : jsstring) : bool :=
  match s with
  | [] => true
  | c :: _ => negb (isStrWhiteSpaceChar c)
  end.

Definition ends_clean (s : jsstring) : bool := starts_clean (rev s).

(** The results of [n] successive invocations of the thunk
    [validateRegex(regex)(value)], the RegExp object being handed from each
    invocation to the next. *)
Fixpoint invoke_times (n : nat) (value : jsstring) (regex : RegExp)
    : list (ValidationResult jsstring) :=
  match n with
  | O => []
  | Datatypes.S k =>
      fst (validateRegex value regex)
      :: invoke_times k value (snd (validateRegex value regex))
  end.

(** "If the value of [page_id] is null or undefined, the rule appends one
    annotation of severity error naming [page_id]." *)
Definition appends_when_nil (r : FlatfileRecord) : Prop :=
  isNil (fst (get "page_id" r)) = true ->
  exists a,
    info (snd (requiredFields r)) = info r ++ [a] /\
    ann_field a = "page_id"%string /\ ann_level a = error.

(** The annotation [requiredFields] writes. *)
Definition page_id_required : Annotation :=
  mkAnnotation "page_id" "Field is required." error.

(** * Properties *)

(** ** Digits and the GTIN-13 check digit *)

Lemma isDigit_value c : isDigit c = true -> 0 <= digit_value c <= 9.
Proof.
  unfold isDigit, digit_value. intros H.
  apply andb_true_iff in H as [H1 H2].
  apply N.leb_le in H1, H2. lia.
Qed.

Lemma Number_of_digit c :
  isDigit c = true -> Number_of_unit c = Some (digit_value c).
Proof. unfold Number_of_unit. now intros ->. Qed.

Lemma split_then_Number_digits s :
  s <> [] -> all_digits s = true ->
  split_then_Number s = List.map (fun c => Some (digit_value c)) s.
Proof.
  intros Hne Hall. destruct s as [|c s]; [congruence|].
  unfold split_then_Number. revert Hall. generalize (c :: s). intros l.
  induction l as [|x l IH]; cbn; [reflexivity|].
  intros H. apply andb_true_iff in H as [Hx Hl].
  now rewrite Number_of_digit, IH.
Qed.

Lemma run_length_all c s : forallb c s = true -> run_length c s = length s.
Proof.
  induction s as [|x s IH]; cbn; [reflexivity|].
  intros H. apply andb_true_iff in H as [-> Hs]. now rewrite IH.
Qed.

(** A string of at least 12 characters, all of them digits, passes the
    format test: the search succeeds at index 0. *)
Lemma format_test_all_digits s :
  all_digits s = true -> (12 <= length s)%nat ->
  fst (test (regexp_literal pat_digits_12_13 true) s) = true.
Proof.
  intros Hall Hlen. unfold test, regexp_literal. cbn [global sticky orb lastIndex source].
  replace (length s <? 0)%nat with false by (symmetry; apply Nat.ltb_ge; lia).
  rewrite Nat.sub_0_r. cbn [search].
  unfold matcher. cbn [cls lo hi pat_digits_12_13]. rewrite drop_0.
  unfold all_digits in Hall. rewrite (run_length_all _ _ Hall).
  destruct (12 <=? length s `min` 13)%nat eqn:E; [reflexivity|].
  apply Nat.leb_gt in E. lia.
Qed.

(** The parity test of the partition sends even positions to the second
    component and odd positions to the first. *)
Lemma partitionWithIndex_from_parity {A} (l : list A) (i : nat) :
  RA.partitionWithIndex_from (fun idx _ => (idx mod 2 =? 0)%nat) i l =
  if Nat.even i then (at_odd l, at_even l) else (at_even l, at_odd l).
Proof.
  revert i. induction l as [|x l IH]; intros i.
  - cbn. now destruct (Nat.even i).
  - cbn [RA.partitionWithIndex_from]. rewrite IH.
    unfold at_even, at_odd. cbn [uninterleave].
    destruct (uninterleave l) as [ev od]. cbn [fst snd].
    rewrite Nat.even_succ, <- Nat.negb_even.
    assert (Hp : (i mod 2 =? 0)%nat = Nat.even i).
    { destruct (Nat.even i) eqn:He.
      - apply Nat.even_spec in He as [k ->]. apply Nat.eqb_eq.
        rewrite Nat.mul_comm. apply Nat.Div0.mod_mul.
      - apply Nat.eqb_neq. intros Hm.
        apply Nat.Div0.mod_divides in Hm as [k ->].
        rewrite Nat.even_mul in He. discriminate. }
    rewrite Hp. now destruct (Nat.even i).
Qed.

Lemma partitionWithIndex_parity {A} (l : list A) :
  RA.partitionWithIndex (fun idx _ => (idx mod 2 =? 0)%nat) l =
  (at_odd l, at_even l).
Proof. unfold RA.partitionWithIndex. now rewrite partitionWithIndex_from_parity. Qed.

Lemma reduce_int_add (l : list Z) (acc : Z) :
  RA.reduce (Some acc) int_add (List.map Some l) = Some (acc + sumZ l).
Proof.
  unfold RA.reduce. revert acc.
  induction l as [|x l IH]; intros acc.
  - cbn. f_equal. lia.
  - cbn [List.map fold_left int_add]. rewrite IH.
    change (sumZ (x :: l)) with (x + sumZ l). f_equal. lia.
Qed.

Lemma uninterleave_map {A B} (f : A -> B) (l : list A) :
  uninterleave (List.map f l) =
  (List.map f (at_even l), List.map f (at_odd l)).
Proof.
  unfold at_even, at_odd. induction l as [|x l IH]; cbn; [reflexivity|].
  rewrite IH. now destruct (uninterleave l).
Qed.

Lemma sumZ_nonneg (l : list Z) : Forall (fun d => 0 <= d) l -> 0 <= sumZ l.
Proof.
  induction 1 as [|x l Hx Hl IH]; [cbn; lia|].
  change (sumZ (x :: l)) with (x + sumZ l). lia.
Qed.

Lemma uninterleave_Forall {A} (P : A -> Prop) (l : list A) :
  Forall P l -> Forall P (at_even l) /\ Forall P (at_odd l).
Proof.
  unfold at_even, at_odd. induction 1 as [|x l Hx Hl [IH1 IH2]]; cbn.
  - split; constructor.
  - destruct (uninterleave l). cbn in *. split; [constructor|]; assumption.
Qed.

(** The checksum stage on a string of digits [body] followed by one more
    digit [chk], exactly as the code computes it. *)
Lemma checksumStage_digits (body : jsstring) (chk : char16) :
  all_digits body = true -> isDigit chk = true ->
  let ds := List.map digit_value body in
  let remainder := (sumZ (at_even ds) + 3 * sumZ (at_odd ds)) mod 10 in
  checksumStage (body ++ [chk]) =
  if 10 - remainder =? digit_value chk
  then E.Right (body ++ [chk])
  else E.Left "Invalid UPC or EAN."%string.
Proof.
  intros Hbody Hchk ds remainder.
  assert (Hall : all_digits (body ++ [chk]) = true).
  { unfold all_digits in *. rewrite forallb_app, Hbody. cbn. now rewrite Hchk. }
  unfold checksumStage.
  rewrite split_then_Number_digits by (try assumption; now destruct body).
  rewrite map_app. cbn [List.map].
  rewrite rev_app_distr. cbn [rev app RA.head O.getOrElse].
  unfold RA.dropRight. rewrite length_app, length_map. cbn [length].
  replace (length body + 1 - 1)%nat with (length body + 0)%nat by lia.
  rewrite <- (length_map (fun c => Some (digit_value c)) body) at 1.
  rewrite take_app_add, take_0, app_nil_r.
  rewrite partitionWithIndex_parity.
  rewrite <- (map_map digit_value Some body). fold ds.
  unfold at_odd at 1, at_even at 1. rewrite uninterleave_map. cbn [fst snd].
  rewrite !reduce_int_add. cbn [int_mul int_add int_rem int_sub int_strict_ne].
  change (10 =? 0) with false. cbv iota.
  assert (Hds : Forall (fun d => 0 <= d) ds).
  { unfold ds. apply List.Forall_map, List.Forall_forall. intros c Hc.
    unfold all_digits in Hbody. rewrite forallb_forall in Hbody.
    apply isDigit_value, Hbody, Hc. }
  destruct (uninterleave_Forall _ _ Hds) as [He Ho].
  apply sumZ_nonneg in He, Ho.
  rewrite Z.rem_mod_nonneg by lia.
  replace ((0 + sumZ (at_odd ds)) * 3 + (0 + sumZ (at_even ds)))
    with (sumZ (at_even ds) + 3 * sumZ (at_odd ds)) by lia.
  fold remainder. unfold int_strict_ne.
  now destruct (10 - remainder =? digit_value chk).
Qed.

(** A string of exactly 13 digits is its first 12 digits followed by its
    13th. *)
Lemma thirteen_split (c : jsstring) :
  length c = 13%nat -> c = take 12 c ++ [List.nth 12 c 0%N].
Proof.
  intros H.
  do 13 (destruct c as [|? c]; [discriminate|]).
  destruct c; [reflexivity|discriminate].
Qed.

Lemma pad13_length s :
  (length s = 12 \/ length s = 13)%nat -> length (pad13 s) = 13%nat.
Proof.
  unfold pad13. intros [H|H]; rewrite H; cbn; [now rewrite H|assumption].
Qed.

Lemma pad13_all_digits s : all_digits s = true -> all_digits (pad13 s) = true.
Proof.
  unfold pad13. intros H. destruct (length s =? 12)%nat; [|assumption].
  cbn. assumption.
Qed.

Lemma all_digits_take n s : all_digits s = true -> all_digits (take n s) = true.
Proof.
  unfold all_digits. rewrite !forallb_forall. intros H x Hx.
  apply H. apply list_elem_of_In. apply list_elem_of_In in Hx.
  apply list_elem_of_lookup in Hx as [i Hi]. apply list_elem_of_lookup.
  exists i. apply lookup_take_Some in Hi. tauto.
Qed.

(** Once the format test has passed, the validator is the checksum stage run
    on the padded input. *)
Lemma validateUpcOrEan_well_formed (s : jsstring) :
  fst (test (regexp_literal pat_digits_12_13 true) s) = true ->
  validateUpcOrEan s tt =
  E.mapLeft (fun msg => [mkMessage [TStr msg] error validate])
            (checksumStage (pad13 s)).
Proof.
  intros Hfmt. unfold validateUpcOrEan, E.fromPredicate.
  rewrite Hfmt. reflexivity.
Qed.

Lemma validateUpcOrEan_malformed (s : jsstring) :
  fst (test (regexp_literal pat_digits_12_13 true) s) = false ->
  validateUpcOrEan s tt = E.Left malformed_upc.
Proof.
  intros Hfmt. unfold validateUpcOrEan, E.fromPredicate.
  rewrite Hfmt. reflexivity.
Qed.

(** The validator on an input of 12 or 13 digits, as the code computes it:
    positions are counted from 0 over the first 12 digits of the padded
    code. *)
Lemma validateUpcOrEan_digits (s : jsstring) :
  all_digits s = true -> (length s = 12 \/ length s = 13)%nat ->
  let digits := List.map digit_value (pad13 s) in
  let sum_even := sumZ (at_even (take 12 digits)) in
  let sum_odd := sumZ (at_odd (take 12 digits)) in
  let remainder := (sum_even + 3 * sum_odd) mod 10 in
  validateUpcOrEan s tt =
  if 10 - remainder =? List.nth 12 digits 0
  then E.Right (pad13 s)
  else E.Left invalid_upc.
Proof.
  intros Hall Hlen digits sum_even sum_odd remainder.
  rewrite validateUpcOrEan_well_formed
    by (apply format_test_all_digits; [assumption | lia]).
  pose proof (pad13_length s Hlen) as H13.
  pose proof (pad13_all_digits s Hall) as Hpad.
  assert (Hchk : isDigit (List.nth 12 (pad13 s) 0%N) = true).
  { unfold all_digits in Hpad. rewrite forallb_forall in Hpad.
    apply Hpad, nth_In. lia. }
  rewrite (thirteen_split (pad13 s) H13) at 1.
  rewrite checksumStage_digits by (try assumption; now apply all_digits_take).
  rewrite <- (thirteen_split (pad13 s) H13).
  assert (Hnth : List.nth 12 digits 0 = digit_value (List.nth 12 (pad13 s) 0%N)).
  { unfold digits.
    rewrite (nth_indep _ 0 (digit_value 0%N)) by (rewrite length_map; lia).
    apply map_nth. }
  rewrite Hnth. unfold remainder, sum_even, sum_odd, digits.
  rewrite !firstn_map. now destruct (_ =? _).
Qed.

(** ** The check-digit computation *)

(** C1, as stated, fails on the UPC 036000291452: the stated weights give the
    expected digit 8 against the actual 2, yet the validator accepts the
    code. *)
Lemma fails_as_stated_036000291452 : ~ fails_as_stated (str "036000291452").
Proof.
  unfold fails_as_stated. intros [_ H].
  assert (Hleft : E.isLeft (validateUpcOrEan (str "036000291452") tt) = true).
  { apply H. vm_compute. discriminate. }
  vm_compute in Hleft. discriminate.
Qed.

(** C1, amended: on an input of 12 or 13 digits the validator takes the last
    digit of the (possibly 0-padded) 13-digit code as the check digit, sums
    the digits at even and at odd 0-indexed positions of the other 12,
    computes remainder = (sum_even + 3 * sum_odd) mod 10 and, when that
    remainder is not 0, fails exactly when (10 - remainder) mod 10 differs
    from the last digit; otherwise it returns the 13-digit code. *)
Theorem upc_check_weights (s : jsstring) :
  all_digits s = true -> (length s = 12 \/ length s = 13)%nat ->
  let digits := List.map digit_value (pad13 s) in
  let sum_even := sumZ (at_even (take 12 digits)) in
  let sum_odd := sumZ (at_odd (take 12 digits)) in
  let remainder := (sum_even + 3 * sum_odd) mod 10 in
  let expected := (10 - remainder) mod 10 in
  remainder <> 0 ->
  validateUpcOrEan s tt =
  if expected =? List.nth 12 digits 0
  then E.Right (pad13 s)
  else E.Left invalid_upc.
Proof.
  intros Hall Hlen digits sum_even sum_odd remainder expected Hrem.
  rewrite (validateUpcOrEan_digits s Hall Hlen).
  fold digits sum_even sum_odd remainder.
  assert (Hr : 0 <= remainder < 10) by (apply Z.mod_pos_bound; lia).
  unfold expected. rewrite (Z.mod_small (10 - remainder)) by lia.
  reflexivity.
Qed.

Lemma upc_check_weights_witness :
  validateUpcOrEan (str "036000291452") tt = E.Right (str "0036000291452").
Proof.
  refine (upc_check_weights (str "036000291452") eq_refl (or_introl eq_refl) _).
  vm_compute. discriminate.
Defined.

(** ** Valid codes *)

(** A valid 13-digit code whose check digit is not 0 is returned as it is. *)
Lemma upc_roundtrip_nonzero_check (c : jsstring) :
  valid_gtin13 c -> List.nth 12 (List.map digit_value c) 0 <> 0 ->
  validateUpcOrEan c tt = E.Right c.
Proof.
  intros (Hlen & Hall & Hchk) Hnz.
  pose proof (validateUpcOrEan_digits c Hall (or_intror Hlen)) as H.
  cbv zeta in H. unfold pad13 in H. rewrite Hlen in H.
  change (13 =? 12)%nat with false in H. cbv iota in H.
  rewrite H. unfold gtin13_check_digit in Hchk.
  set (r := (_ + 3 * _) mod 10) in *.
  assert (Hr : 0 <= r < 10) by (apply Z.mod_pos_bound; lia).
  destruct (Z.eq_dec r 0) as [Hr0|Hr0].
  - rewrite Hr0 in Hchk. now rewrite Hchk in Hnz.
  - rewrite Z.mod_small in Hchk by lia. rewrite Hchk, Z.eqb_refl. reflexivity.
Qed.

(** A valid 13-digit code whose check digit is 0 is rejected: the code
    compares the last digit with [10 - remainder], which is 10 there. *)
Lemma upc_rejects_zero_check (c : jsstring) :
  valid_gtin13 c -> List.nth 12 (List.map digit_value c) 0 = 0 ->
  validateUpcOrEan c tt = E.Left invalid_upc.
Proof.
  intros (Hlen & Hall & Hchk) Hz.
  pose proof (validateUpcOrEan_digits c Hall (or_intror Hlen)) as H.
  cbv zeta in H. unfold pad13 in H. rewrite Hlen in H.
  change (13 =? 12)%nat with false in H. cbv iota in H.
  rewrite H. unfold gtin13_check_digit in Hchk.
  set (r := (_ + 3 * _) mod 10) in *.
  assert (Hr : 0 <= r < 10) by (apply Z.mod_pos_bound; lia).
  rewrite Hz in *.
  destruct (10 - r =? 0) eqn:E; [apply Z.eqb_eq in E; lia | reflexivity].
Qed.

(** Replacing the last digit of a valid 13-digit code by another digit makes
    the validator fail. *)
Lemma upc_altered_check_digit_fails (c : jsstring) (d : char16) :
  valid_gtin13 c -> isDigit d = true -> d <> List.nth 12 c 0%N ->
  validateUpcOrEan (take 12 c ++ [d]) tt = E.Left invalid_upc.
Proof.
  intros (Hlen & Hall & Hchk) Hd Hne.
  assert (Hlen' : length (take 12 c ++ [d]) = 13%nat).
  { rewrite length_app, length_take. cbn [length]. lia. }
  assert (Hall' : all_digits (take 12 c ++ [d]) = true).
  { unfold all_digits. rewrite forallb_app.
    fold (all_digits (take 12 c)). rewrite all_digits_take by assumption.
    cbn. now rewrite Hd. }
  pose proof (validateUpcOrEan_digits _ Hall' (or_intror Hlen')) as H.
  cbv zeta in H. unfold pad13 in H. rewrite Hlen' in H.
  change (13 =? 12)%nat with false in H. cbv iota in H. rewrite H. clear H.
  assert (Htake : take 12 (List.map digit_value (take 12 c ++ [d])) =
                  take 12 (List.map digit_value c)).
  { rewrite !firstn_map. f_equal.
    rewrite take_app_le by (rewrite length_take; lia).
    apply take_take. }
  assert (Hnth : List.nth 12 (List.map digit_value (take 12 c ++ [d])) 0 =
                 digit_value d).
  { rewrite map_app, app_nth2 by (rewrite length_map, length_take; lia).
    rewrite length_map, length_take.
    replace (12 - 12 `min` length c)%nat with 0%nat by lia. reflexivity. }
  rewrite Htake, Hnth.
  assert (Hold : List.nth 12 (List.map digit_value c) 0 =
                 digit_value (List.nth 12 c 0%N)).
  { rewrite (nth_indep _ 0 (digit_value 0%N)) by (rewrite length_map; lia).
    apply map_nth. }
  rewrite Hold in Hchk. unfold gtin13_check_digit in Hchk.
  set (r := (_ + 3 * _) mod 10) in *.
  assert (Hr : 0 <= r < 10) by (apply Z.mod_pos_bound; lia).
  destruct (10 - r =? digit_value d) eqn:E; [|reflexivity].
  apply Z.eqb_eq in E. exfalso. apply Hne.
  pose proof (isDigit_value d Hd) as Hdv.
  assert (Hmod : (10 - r) mod 10 = 10 - r) by (apply Z.mod_small; lia).
  unfold digit_value in *. lia.
Qed.

(** A valid 12-digit UPC, once padded, is a valid 13-digit code with the
    same check digit. *)
Lemma valid_upc12_padded (u : jsstring) :
  valid_upc12 u -> valid_gtin13 (str "0" ++ u).
Proof.
  intros (Hlen & Hall & Hchk). repeat split.
  - cbn. now rewrite Hlen.
  - cbn. assumption.
  - change (List.map digit_value (str "0" ++ u))
      with (0 :: List.map digit_value u).
    change (take 12 (0 :: List.map digit_value u))
      with (0 :: take 11 (List.map digit_value u)).
    change (List.nth 12 (0 :: List.map digit_value u) 0)
      with (List.nth 11 (List.map digit_value u) 0).
    rewrite Hchk. unfold gtin13_check_digit, upca_check_digit, at_even, at_odd.
    cbn [uninterleave]. destruct (uninterleave _) as [ev od]. cbn [fst snd].
    change (sumZ (0 :: od)) with (0 + sumZ od).
    f_equal. f_equal. f_equal. lia.
Qed.

Lemma pad13_twelve (u : jsstring) : length u = 12%nat -> pad13 u = str "0" ++ u.
Proof. unfold pad13. now intros ->. Qed.

Lemma pad13_thirteen (c : jsstring) : length c = 13%nat -> pad13 c = c.
Proof. unfold pad13. now intros ->. Qed.

(** On 12 digits the validator answers as it does on the padded code. *)
Lemma validateUpcOrEan_padded (u : jsstring) :
  all_digits u = true -> length u = 12%nat ->
  validateUpcOrEan u tt = validateUpcOrEan (str "0" ++ u) tt.
Proof.
  intros Hall Hlen.
  assert (Hall' : all_digits (str "0" ++ u) = true) by (cbn; assumption).
  assert (Hlen' : length (str "0" ++ u) = 13%nat) by (cbn; now rewrite Hlen).
  rewrite (validateUpcOrEan_digits u Hall (or_introl Hlen)).
  rewrite (validateUpcOrEan_digits _ Hall' (or_intror Hlen')).
  now rewrite (pad13_twelve u Hlen), (pad13_thirteen _ Hlen').
Qed.

(** A valid 12-digit UPC whose check digit is not 0 validates to "0" + u. *)
Lemma upc12_normalized_nonzero_check (u : jsstring) :
  valid_upc12 u -> List.nth 11 (List.map digit_value u) 0 <> 0 ->
  validateUpcOrEan u tt = E.Right (str "0" ++ u).
Proof.
  intros Hvalid Hnz. pose proof Hvalid as (Hlen & Hall & _).
  rewrite validateUpcOrEan_padded by assumption.
  apply upc_roundtrip_nonzero_check; [now apply valid_upc12_padded | exact Hnz].
Qed.

(** The literal example of section 8. *)
Example upc_036000291452 :
  validateUpcOrEan (str "036000291452") tt = E.Right (str "0036000291452").
Proof. reflexivity. Qed.

(** ** Codes whose check digit is 0 *)

(** C2 does not hold of the code at 4006381000260, a valid 13-digit code
    whose check digit is 0: the round trip would give Ok("4006381000260"),
    the validator answers Fail. *)
Theorem upc_rejects_4006381000260 :
  valid_gtin13 (str "4006381000260") /\
  validateUpcOrEan (str "4006381000260") tt = E.Left invalid_upc.
Proof. split; [repeat split|]; reflexivity. Qed.

(** C3 does not hold of the code at 036000000290, a valid 12-digit UPC whose
    check digit is 0: normalization would give Ok("0036000000290"), the
    validator answers Fail. *)
Theorem upc_rejects_036000000290 :
  valid_upc12 (str "036000000290") /\
  validateUpcOrEan (str "036000000290") tt = E.Left invalid_upc.
Proof. split; [repeat split|]; reflexivity. Qed.

(** ** The format test *)

Lemma search_found p s i fuel e :
  search p s i fuel = Some e ->
  exists j, (i <= j < i + fuel)%nat /\ matcher p s j = Some e.
Proof.
  revert i. induction fuel as [|k IH]; intros i; cbn; [discriminate|].
  destruct (matcher p s i) eqn:Hm.
  - intros [= ->]. exists i. split; [lia | assumption].
  - intros H. apply IH in H as (j & Hj & Hmj). exists j. split; [lia | assumption].
Qed.

Lemma search_not_found p s i fuel :
  search p s i fuel = None ->
  forall j, (i <= j < i + fuel)%nat -> matcher p s j = None.
Proof.
  revert i. induction fuel as [|k IH]; intros i; cbn; [lia|].
  destruct (matcher p s i) eqn:Hm; [discriminate|].
  intros H j Hj. destruct (Nat.eq_dec j i) as [->|Hne]; [assumption|].
  apply (IH _ H). lia.
Qed.

Lemma run_length_ge (c : char16 -> bool) (n : nat) (t : jsstring) :
  (n <= run_length c t)%nat <->
  exists run post, t = run ++ post /\ length run = n /\ forallb c run = true.
Proof.
  revert t. induction n as [|n IH]; intros t.
  - split; [|lia]. intros _. exists [], t. auto.
  - split.
    + destruct t as [|x t]; cbn; [lia|].
      destruct (c x) eqn:Hx; [|lia]. intros H.
      apply le_S_n, IH in H as (run & post & -> & Hlen & Hall).
      exists (x :: run), post. cbn. rewrite Hx, Hlen. auto.
    + intros (run & post & -> & Hlen & Hall).
      destruct run as [|x run]; [discriminate|].
      cbn in *. apply andb_true_iff in Hall as [-> Hall].
      apply le_n_S, IH. exists run, post. split; [reflexivity|].
      split; [congruence | assumption].
Qed.

Lemma matcher_digits (s : jsstring) (j : nat) :
  (exists e, matcher pat_digits_12_13 s j = Some e) <->
  (12 <= run_length isDigit (drop j s))%nat.
Proof.
  unfold matcher. cbn [cls lo hi pat_digits_12_13].
  destruct (12 <=? _)%nat eqn:E.
  - apply Nat.leb_le in E. split; [lia | eauto].
  - apply Nat.leb_gt in E. split; [intros [e [=]] | lia].
Qed.

(** The format test lets a value through exactly when it holds a run of 12
    digits: the match is not anchored. *)
Lemma format_test_iff_digit_run (s : jsstring) :
  fst (test (regexp_literal pat_digits_12_13 true) s) = true <->
  has_digit_run s.
Proof.
  unfold test, regexp_literal.
  cbn [global sticky orb lastIndex source].
  replace (length s <? 0)%nat with false by (symmetry; apply Nat.ltb_ge; lia).
  rewrite Nat.sub_0_r.
  destruct (search _ s 0 _) as [e|] eqn:Hs; cbn [fst]; split;
    try discriminate; try reflexivity.
  - intros _. apply search_found in Hs as (j & Hj & Hm).
    assert (H12 : (12 <= run_length isDigit (drop j s))%nat)
      by (apply matcher_digits; eauto).
    apply run_length_ge in H12 as (run & post & Hd & Hlen & Hall).
    exists (take j s), run, post. rewrite <- Hd, take_drop. auto.
  - intros (pre & run & post & -> & Hlen & Hall). exfalso.
    pose proof (search_not_found _ _ _ _ Hs (length pre)) as Hm.
    rewrite !length_app in Hm. specialize (Hm ltac:(lia)).
    assert (He : exists e, matcher pat_digits_12_13 (pre ++ run ++ post)
                             (length pre) = Some e).
    { apply matcher_digits. rewrite drop_app_length.
      apply run_length_ge. eauto. }
    destruct He as [e He]. congruence.
Qed.

(** The malformed-input error is the answer exactly on the values with no
    run of 12 digits. *)
Lemma malformed_iff_no_digit_run (s : jsstring) :
  validateUpcOrEan s tt = E.Left malformed_upc <-> ~ has_digit_run s.
Proof.
  rewrite <- format_test_iff_digit_run.
  destruct (fst (test _ s)) eqn:Hfmt.
  - rewrite validateUpcOrEan_well_formed by assumption.
    unfold checksumStage. destruct (RA.partitionWithIndex _ _) as [ev od].
    destruct (int_strict_ne _ _); cbn; split; try discriminate;
      intros H; now elim H.
  - rewrite validateUpcOrEan_malformed by assumption.
    split; [intros _; discriminate | reflexivity].
Qed.

(** C4 does not hold of the code at 10000000000009: the format test finds 13
    digits in a row, the whole 14-character value goes through the checksum
    stage unpadded, passes it, and is returned, so the success value is not
    a 13-digit string. The same happens with a white-space character next to
    12 digits, which [Number] converts to 0. *)
Theorem upc_accepts_10000000000009 :
  validateUpcOrEan (str "10000000000009") tt = E.Right (str "10000000000009")
  /\ length (str "10000000000009") = 14%nat
  /\ validateUpcOrEan (str " 100000000007") tt = E.Right (str " 100000000007")
  /\ all_digits (str " 100000000007") = false.
Proof. repeat split; reflexivity. Qed.

(** ** Accumulating failures *)

Section Accumulation.

Context {T : Type}.
Implicit Types (r : ValidationResult T) (rs : list (ValidationResult T)).

Lemma failure_issues_cons_left issues rs :
  failure_issues (E.Left issues :: rs) = issues ++ failure_issues rs.
Proof. reflexivity. Qed.

Lemma failure_issues_cons_right (v : T) rs :
  failure_issues (E.Right v :: rs) = failure_issues rs.
Proof. reflexivity. Qed.

Lemma failing_none_all_ok rs : length (failing rs) = 0%nat <-> all_ok rs = true.
Proof.
  induction rs as [|[issues|v] rs IH]; cbn.
  - tauto.
  - split; [lia | discriminate].
  - exact IH.
Qed.

(** With one issue per failing result there are as many issues as failing
    results. *)
Lemma failure_issues_length rs :
  Forall (fun r => E.isLeft r = true -> length (issuesOf r) = 1%nat) rs ->
  length (failure_issues rs) = length (failing rs).
Proof.
  induction 1 as [|[issues|v] rs Hr Hrs IH].
  - reflexivity.
  - rewrite failure_issues_cons_left, length_app, IH.
    cbn in Hr |- *. now rewrite Hr.
  - exact IH.
Qed.

(** *** The runner *)

Lemma fold_accumulate_left rs issues :
  fold_left accumulate rs (E.Left issues) =
  E.Left (issues ++ failure_issues rs).
Proof.
  revert issues. induction rs as [|[issues'|v] rs IH]; intros issues.
  - cbn. now rewrite app_nil_r.
  - cbn [fold_left accumulate]. rewrite IH, failure_issues_cons_left.
    now rewrite app_assoc.
  - cbn [fold_left accumulate]. now rewrite IH, failure_issues_cons_right.
Qed.

Lemma last_cons {A} (x d : A) (l : list A) :
  List.last (x :: l) d = List.last l x.
Proof.
  revert x d. induction l as [|y l IH]; intros x d; [reflexivity|].
  change (List.last (x :: y :: l) d) with (List.last (y :: l) d).
  now rewrite (IH y d), (IH y x).
Qed.

Lemma fold_accumulate_right rs (v : T) :
  fold_left accumulate rs (E.Right v) =
  if all_ok rs then List.last rs (E.Right v)
  else E.Left (failure_issues rs).
Proof.
  revert v. induction rs as [|[issues|w] rs IH]; intros v.
  - reflexivity.
  - cbn [fold_left accumulate]. rewrite fold_accumulate_left. reflexivity.
  - cbn [fold_left accumulate]. rewrite IH.
    change (all_ok (E.Right w :: rs)) with (all_ok rs).
    destruct (all_ok rs); [|reflexivity].
    now rewrite last_cons.
Qed.

Lemma last_all_ok rs r :
  all_ok (r :: rs) = true -> exists v, List.last rs r = E.Right v.
Proof.
  revert r. induction rs as [|r' rs IH]; intros r H.
  - destruct r; [discriminate | eauto].
  - rewrite last_cons. apply IH. cbn in H |- *. apply andb_true_iff in H. tauto.
Qed.

End Accumulation.

(** C5: when exactly [k >= 1] of the results given to [runValidations] are
    failures, the answer is the failure holding the issues of the failing
    results concatenated in input order (so [k] issues when every failing
    result carries one), whichever of the results fail; when none fails, the
    answer is a success. Every failing input contributes, also after the
    first failure. *)
Theorem runValidations_accumulates {T} (r : ValidationResult T)
    (rs : list (ValidationResult T)) (k : nat) :
  length (failing (r :: rs)) = k ->
  ((1 <= k)%nat ->
     runValidations r rs = E.Left (failure_issues (r :: rs)) /\
     (Forall (fun x => E.isLeft x = true -> length (issuesOf x) = 1%nat)
             (r :: rs) ->
      length (failure_issues (r :: rs)) = k)) /\
  (k = 0%nat -> exists v, runValidations r rs = E.Right v).
Proof.
  intros Hk. unfold runValidations. split.
  - intros Hpos. split.
    + destruct r as [issues|v].
      * now rewrite fold_accumulate_left, failure_issues_cons_left.
      * rewrite fold_accumulate_right, failure_issues_cons_right.
        destruct (all_ok rs) eqn:Hok; [|reflexivity].
        apply failing_none_all_ok in Hok.
        change (failing (E.Right v :: rs)) with (failing rs) in Hk. lia.
    + intros Hone. now rewrite failure_issues_length.
  - intros ->. destruct r as [issues|v]; [discriminate|].
    rewrite fold_accumulate_right.
    assert (Hok : all_ok rs = true) by (apply failing_none_all_ok; exact Hk).
    rewrite Hok. apply last_all_ok. exact Hok.
Qed.

(** The rating 7.5 fails both of its checks, and both issues are kept. *)
Lemma runValidations_accumulates_witness :
  let rating := Fin (15 # 2) in
  runValidations (validateWholeNumber rating tt)
                 [validateRangeInclusive (num_of_Z 1) (num_of_Z 5) rating tt] =
  E.Left [mkMessage [TStr "Whole numbers only."] error validate;
          mkMessage [TStr "Value must be between "; TNum (num_of_Z 1);
                     TStr " and "; TNum (num_of_Z 5); TStr "."]
                    error validate].
Proof.
  exact (proj1 (proj1 (runValidations_accumulates
                         (validateWholeNumber (Fin (15 # 2)) tt)
                         [validateRangeInclusive (num_of_Z 1) (num_of_Z 5)
                            (Fin (15 # 2)) tt]
                         2 eq_refl)
                      (le_S 1 1 (le_n 1)))).
Defined.

(** *** The sequencer *)

Section Sequencer.

Context {T : Type}.

Lemma curried_partial (n : nat) (acc : list T) (x : T) :
  Ap.curried n acc x = partial n (acc ++ [x]).
Proof. destruct n; reflexivity. Qed.

Lemma sequenceT_loop_left (args : list (ValidationResult T))
    (issues : list Message) :
  Ap.sequenceT_loop NEA.concat args (E.Left issues) =
  E.Left (issues ++ failure_issues args).
Proof.
  revert issues. induction args as [|[issues'|v] args IH]; intros issues.
  - cbn. now rewrite app_nil_r.
  - cbn [Ap.sequenceT_loop Ap.ap]. unfold NEA.concat at 2.
    rewrite IH, failure_issues_cons_left. now rewrite app_assoc.
  - cbn [Ap.sequenceT_loop Ap.ap].
    now rewrite IH, failure_issues_cons_right.
Qed.

Lemma sequenceT_loop_right (args : list (ValidationResult T))
    (acc : list T) :
  Ap.sequenceT_loop NEA.concat args (E.Right (partial (length args) acc)) =
  if all_ok args then E.Right (acc ++ successes args)
  else E.Left (failure_issues args).
Proof.
  revert acc. induction args as [|[issues|v] args IH]; intros acc.
  - cbn. now rewrite app_nil_r.
  - cbn [Ap.sequenceT_loop Ap.ap length partial].
    rewrite sequenceT_loop_left. reflexivity.
  - cbn [Ap.sequenceT_loop Ap.ap length partial].
    rewrite curried_partial, IH.
    change (all_ok (E.Right v :: args)) with (all_ok args).
    destruct (all_ok args); [|reflexivity].
    cbn [successes]. now rewrite <- app_assoc.
Qed.

Lemma sequenceValidationT_eq (r : ValidationResult T)
    (rs : list (ValidationResult T)) :
  sequenceValidationT r rs =
  if all_ok (r :: rs) then E.Right (successes (r :: rs))
  else E.Left (failure_issues (r :: rs)).
Proof.
  unfold sequenceValidationT, Ap.sequenceT. destruct r as [issues|v].
  - cbn [E.map all_ok forallb E.isLeft negb andb].
    apply sequenceT_loop_left.
  - cbn [E.map]. rewrite curried_partial, sequenceT_loop_right.
    change (all_ok (E.Right v :: rs)) with (all_ok rs).
    reflexivity.
Qed.

End Sequencer.

(** C6: the sequencer turns [Ok(x), Fail([a]), Fail([b,c])] into
    [Fail([a,b,c])]; it turns successes into the success holding their values
    in input order; and in general its answer is the success of all values
    when nothing fails and otherwise the failure holding the issues of every
    failing input, concatenated in input order, so no failing input hides
    the issues of another. *)
Theorem sequence_failure_union {T} :
  (forall (x : T) (a b c : Message),
     sequenceValidationT (E.Right x) [E.Left [a]; E.Left [b; c]] =
     E.Left [a; b; c]) /\
  (forall (v : T) (vs : list T),
     sequenceValidationT (E.Right v) (List.map E.Right vs) =
     E.Right (v :: vs)) /\
  (forall (r : ValidationResult T) (rs : list (ValidationResult T)),
     sequenceValidationT r rs =
     if all_ok (r :: rs) then E.Right (successes (r :: rs))
     else E.Left (failure_issues (r :: rs))).
Proof.
  split; [|split].
  - reflexivity.
  - intros v vs. rewrite sequenceValidationT_eq.
    assert (H : all_ok (List.map (@E.Right (list Message) T) vs) = true /\
                successes (List.map E.Right vs) = vs).
    { induction vs as [|w vs [IH1 IH2]]; [split; reflexivity|].
      split; [exact IH1 | cbn; now rewrite IH2]. }
    destruct H as [H1 H2].
    change (all_ok (E.Right v :: List.map E.Right vs))
      with (all_ok (List.map (@E.Right (list Message) T) vs)).
    rewrite H1. cbn [successes]. now rewrite H2.
  - apply sequenceValidationT_eq.
Qed.

(** ** Record hooks *)

Lemma map_calls_in_order (fns : list (Hook jsresult)) (x : FlatfileRecord) :
  map_calls fns x = (returned_in_order fns x, applied_in_order fns x).
Proof.
  revert x. induction fns as [|f fns IH]; intros x; [reflexivity|].
  cbn [map_calls returned_in_order applied_in_order fold_left].
  unfold mbind, Hook_bind, mret, Hook_ret.
  destruct (f x) as [r x'] eqn:Hf. rewrite IH. reflexivity.
Qed.

(** C7, as stated, fails with the one rule [requiredFields] on the empty
    record: what comes back is a one-element array, not the record. *)
Lemma fold_requiredFields_not_the_record :
  ~ returns_the_record [requiredFields] (mkRecord ∅ []).
Proof. unfold returns_the_record. cbn. discriminate. Qed.

(** C7, amended: [fold(...fns)(r)] applies each rule to [r] in the listed
    order, every rule seeing what the earlier ones did to the record, and
    returns the array of what the rules returned, one element per rule in
    that order; the record is changed in place. *)
Theorem fold_applies_in_order (fns : list (Hook jsresult))
    (r : FlatfileRecord) :
  fold fns r = (Array (returned_in_order fns r), applied_in_order fns r) /\
  length (returned_in_order fns r) = length fns.
Proof.
  split.
  - unfold fold, mbind, Hook_bind, mret, Hook_ret.
    now rewrite map_calls_in_order.
  - revert r. induction fns as [|f fns IH]; intros r; [reflexivity|].
    cbn. now rewrite IH.
Qed.

(** What the rule does to the record, by what the record holds under
    [page_id]. *)
Lemma requiredFields_by_field (r : FlatfileRecord) :
  snd (requiredFields r) =
  match data r !! "page_id" with
  | Some v =>
      if isNil v then mkRecord (data r) (info r ++ [page_id_required]) else r
  | None => r
  end.
Proof.
  cbv beta delta [requiredFields mbind Hook_bind mret Hook_ret get addError
                    verifyField].
  destruct (data r !! "page_id") as [v|] eqn:E; simpl.
  - destruct (isNil v); simpl; rewrite ?E; simpl;
      [reflexivity | now destruct r].
  - rewrite E. simpl. now destruct r.
Qed.

(** C9, as stated, fails on the record that has no field [page_id]: [get]
    reads null there, so the rule calls [addError], which finds no such
    field and adds nothing. *)
Lemma requiredFields_without_the_field : ~ appends_when_nil (mkRecord ∅ []).
Proof.
  unfold appends_when_nil. intros H.
  destruct (H eq_refl) as (a & Ha & _).
  vm_compute in Ha. discriminate.
Qed.

(** C9, amended: on a record that has the field [page_id] with the value null
    or undefined the rule appends one annotation, of severity error and
    naming [page_id], and changes nothing else; on a record whose [page_id]
    has any other value the rule leaves the record as it is; and on a record
    that does not have the field at all the rule leaves the record as it is
    too. *)
Theorem requiredFields_page_id (r : FlatfileRecord) :
  (data r !! "page_id" = Some VNull \/ data r !! "page_id" = Some VUndefined ->
   exists a,
     snd (requiredFields r) = mkRecord (data r) (info r ++ [a]) /\
     ann_field a = "page_id"%string /\ ann_level a = error) /\
  (forall v, data r !! "page_id" = Some v -> isNil v = false ->
             snd (requiredFields r) = r) /\
  (data r !! "page_id" = None -> snd (requiredFields r) = r).
Proof.
  rewrite requiredFields_by_field.
  destruct (data r !! "page_id") as [v|]; split; [|split| |split].
  - intros Hnil. exists page_id_required.
    destruct Hnil as [[= ->] | [= ->]]; cbn; auto.
  - intros v' [= <-] ->. reflexivity.
  - discriminate.
  - intros [H | H]; discriminate.
  - discriminate.
  - reflexivity.
Qed.

Lemma requiredFields_page_id_witness :
  (exists a,
     snd (requiredFields (mkRecord {["page_id" := VNull]} [])) =
     mkRecord {["page_id" := VNull]} ([] ++ [a]) /\
     ann_field a = "page_id"%string /\ ann_level a = error) /\
  snd (requiredFields (mkRecord {["page_id" := VStr (str "B00X")]} [])) =
  mkRecord {["page_id" := VStr (str "B00X")]} [] /\
  snd (requiredFields (mkRecord {["title" := VStr (str "Fine")]} [])) =
  mkRecord {["title" := VStr (str "Fine")]} [].
Proof.
  split; [|split].
  - exact (proj1 (requiredFields_page_id (mkRecord {["page_id" := VNull]} []))
                 (or_introl eq_refl)).
  - exact (proj1 (proj2 (requiredFields_page_id
                           (mkRecord {["page_id" := VStr (str "B00X")]} [])))
                 (VStr (str "B00X")) eq_refl eq_refl).
  - exact (proj2 (proj2 (requiredFields_page_id
                           (mkRecord {["title" := VStr (str "Fine")]} [])))
                 eq_refl).
Defined.

(** ** Single validators *)

(** C10: a failure of a single validator carries exactly one issue, whose
    severity is the one fixed for its combinator: warn for max-length and
    regex-match, error for whole-number, range-inclusive, positive and
    upc-or-ean. Such a failure is never empty. *)
Theorem single_failure_has_one_issue (c : invocation)
    (issues : list Message) :
  invoke c = Some issues ->
  exists m, issues = [m] /\ level m = fixed_severity c /\ issues <> [].
Proof.
  destruct c as [len v | v | lo' hi' v | regex v | v | v];
    cbn [invoke fixed_severity].
  - unfold validateMaxLength. destruct (num_le _ _); cbn; [discriminate|].
    intros [= <-]. eexists. repeat split. discriminate.
  - unfold validateWholeNumber. destruct (rem1_is_zero _); cbn; [discriminate|].
    intros [= <-]. eexists. repeat split. discriminate.
  - unfold validateRangeInclusive. destruct (_ && _); cbn; [discriminate|].
    intros [= <-]. eexists. repeat split. discriminate.
  - unfold validateRegex. destruct (test regex v) as [[|] regex']; cbn;
      [discriminate|].
    intros [= <-]. eexists. repeat split. discriminate.
  - unfold validatePositive. destruct (num_ge _ _); cbn; [discriminate|].
    intros [= <-]. eexists. repeat split. discriminate.
  - unfold validateUpcOrEan, E.fromPredicate.
    destruct (fst (test _ v)); cbn [E.map E.chain E.mapLeft].
    + destruct (checksumStage _); cbn; [|discriminate].
      intros [= <-]. eexists. repeat split. discriminate.
    + cbn. intros [= <-]. eexists. repeat split. discriminate.
Qed.

(** Forty-one characters against a limit of forty. *)
Lemma single_failure_has_one_issue_witness :
  exists m,
    [mkMessage [TStr "Cannot be more than "; TNum (num_of_nat 40);
                TStr " characters."] warn validate] = [m] /\
    level m = warn /\
    [mkMessage [TStr "Cannot be more than "; TNum (num_of_nat 40);
                TStr " characters."] warn validate] <> [].
Proof.
  exact (single_failure_has_one_issue
           (MaxLength (num_of_nat 40) (repeat 120%N 41)) _ eq_refl).
Defined.

(** The boundary cases of section 8. *)
Example maxLength_40_of_41 :
  validateMaxLength (num_of_nat 40) (repeat 120%N 41) tt =
  E.Left [mkMessage [TStr "Cannot be more than "; TNum (num_of_nat 40);
                     TStr " characters."] warn validate].
Proof. reflexivity. Qed.

Example maxLength_40_of_40 :
  validateMaxLength (num_of_nat 40) (repeat 120%N 40) tt =
  E.Right (repeat 120%N 40).
Proof. reflexivity. Qed.

Example rangeInclusive_1_5_of_5 :
  validateRangeInclusive (num_of_Z 1) (num_of_Z 5) (num_of_Z 5) tt =
  E.Right (num_of_Z 5).
Proof. reflexivity. Qed.

Example rangeInclusive_1_5_of_6 :
  E.isLeft (validateRangeInclusive (num_of_Z 1) (num_of_Z 5) (num_of_Z 6) tt)
  = true.
Proof. reflexivity. Qed.

Example positive_of_0 : E.isLeft (validatePositive (num_of_Z 0) tt) = true.
Proof. reflexivity. Qed.

Example positive_of_0_01 : validatePositive lit_0_01 tt = E.Right lit_0_01.
Proof. reflexivity. Qed.

(** ** Invoking a validator twice *)


(** C8 does not hold of the code with the no-spaces RegExp, which carries
    the global flag: the first invocation of the thunk for "abc" matches and
    moves [lastIndex] to 3, the second searches from there, finds nothing,
    and fails. Two thunks built on the same RegExp object share that
    state. *)
Theorem validateRegex_global_differs_on_second_call :
  let noSpaces := regexp_literal pat_no_space_plus true in
  let value := str "abc" in
  let first := validateRegex value noSpaces in
  let second := validateRegex value (snd first) in
  fst first = E.Right value /\
  lastIndex (snd first) = 3%nat /\
  fst second =
    E.Left [mkMessage [TStr "Value does not meet required format."]
              warn validate].
Proof. repeat split; reflexivity. Qed.

(** * Further properties of the code *)

(** ** Which codes the checksum validator accepts *)

Lemma nth_map_digit_value (c : jsstring) (i : nat) :
  (i < length c)%nat ->
  List.nth i (List.map digit_value c) 0 = digit_value (List.nth i c 0%N).
Proof.
  intros Hi.
  rewrite (nth_indep _ 0 (digit_value 0%N)) by (rewrite length_map; lia).
  apply map_nth.
Qed.

(** X1: a string of exactly 13 digits is returned as a success exactly when
    its last digit is the GTIN-13 check digit of the first 12 and is not 0;
    any other string of 13 digits gets the invalid-code failure. *)
Theorem upc13_accepted_iff (c : jsstring) :
  all_digits c = true -> length c = 13%nat ->
  (validateUpcOrEan c tt = E.Right c <->
   valid_gtin13 c /\ List.nth 12 (List.map digit_value c) 0 <> 0) /\
  (validateUpcOrEan c tt = E.Right c \/
   validateUpcOrEan c tt = E.Left invalid_upc).
Proof.
  intros Hall Hlen.
  pose proof (validateUpcOrEan_digits c Hall (or_intror Hlen)) as H.
  cbv zeta in H. rewrite (pad13_thirteen c Hlen) in H.
  split; [split|].
  - intros Hok. rewrite Hok in H.
    destruct (_ =? _) eqn:E in H; [|discriminate].
    apply Z.eqb_eq in E.
    assert (Hd : isDigit (List.nth 12 c 0%N) = true).
    { unfold all_digits in Hall. rewrite forallb_forall in Hall.
      apply Hall, nth_In. lia. }
    apply isDigit_value in Hd.
    rewrite <- (nth_map_digit_value c 12) in Hd by lia.
    set (r := (_ + 3 * _) mod 10) in *.
    assert (Hr : 0 <= r < 10) by (apply Z.mod_pos_bound; lia).
    split; [|lia]. repeat split; try assumption.
    unfold gtin13_check_digit. fold r. rewrite Z.mod_small by lia. lia.
  - intros [Hvalid Hnz]. now apply upc_roundtrip_nonzero_check.
  - rewrite H. destruct (_ =? _); auto.
Qed.

Lemma upc13_accepted_iff_witness :
  validateUpcOrEan (str "4006381333931") tt = E.Right (str "4006381333931").
Proof.
  apply (proj1 (upc13_accepted_iff (str "4006381333931") eq_refl eq_refl)).
  split; [repeat split; reflexivity | vm_compute; discriminate].
Defined.

(** X2: whatever the validator answers on 12 digits, it answers on the same
    digits behind a leading 0, and the other way round. *)
Theorem upc12_answers_as_padded (u : jsstring) :
  all_digits u = true -> length u = 12%nat ->
  validateUpcOrEan u tt = validateUpcOrEan (str "0" ++ u) tt /\
  (validateUpcOrEan u tt = E.Right (str "0" ++ u) \/
   validateUpcOrEan u tt = E.Left invalid_upc).
Proof.
  intros Hall Hlen. split; [now apply validateUpcOrEan_padded|].
  rewrite (validateUpcOrEan_digits u Hall (or_introl Hlen)).
  rewrite (pad13_twelve u Hlen). destruct (_ =? _); auto.
Qed.

Lemma upc12_answers_as_padded_witness :
  validateUpcOrEan (str "036000291452") tt =
  validateUpcOrEan (str "0036000291452") tt.
Proof.
  exact (proj1 (upc12_answers_as_padded (str "036000291452") eq_refl eq_refl)).
Defined.

(** X3: replacing the last digit of a valid 13-digit code by any other digit
    gives a code the validator rejects, also when the valid code's own check
    digit is 0. *)
Theorem upc_altered_last_digit_rejected (c : jsstring) (d : char16) :
  valid_gtin13 c -> isDigit d = true -> d <> List.nth 12 c 0%N ->
  validateUpcOrEan (take 12 c ++ [d]) tt = E.Left invalid_upc.
Proof. apply upc_altered_check_digit_fails. Qed.

Lemma upc_altered_last_digit_rejected_witness :
  validateUpcOrEan (str "4006381333937") tt = E.Left invalid_upc.
Proof.
  refine (upc_altered_last_digit_rejected (str "4006381333931") 55%N _ eq_refl _).
  - repeat split; reflexivity.
  - vm_compute. discriminate.
Defined.

(** X4: the malformed-input failure is the answer exactly on the values that
    hold no 12 digits in a row; where the digits sit in the value does not
    matter. *)
Theorem upc_malformed_iff (s : jsstring) :
  validateUpcOrEan s tt = E.Left malformed_upc <-> ~ has_digit_run s.
Proof. apply malformed_iff_no_digit_run. Qed.

(** *** Characters that are not digits *)

Lemma reduce_int_add_NaN (l : list intnum) (acc : intnum) :
  In None l -> RA.reduce acc int_add l = None.
Proof.
  unfold RA.reduce. revert acc. induction l as [|x l IH]; intros acc; [easy|].
  intros [-> | Hin].
  - cbn [fold_left]. replace (int_add acc None) with (@None Z)
      by (now destruct acc).
    clear. induction l as [|y l IH]; [reflexivity | exact IH].
  - cbn [fold_left]. now apply IH.
Qed.

Lemma uninterleave_In {A} (x : A) (l : list A) :
  In x l -> In x (at_even l) \/ In x (at_odd l).
Proof.
  unfold at_even, at_odd. induction l as [|y l IH]; [easy|].
  cbn [uninterleave]. destruct (uninterleave l) as [ev od]. cbn [fst snd] in *.
  intros [-> | Hin]; [left; now left|].
  destruct (IH Hin); [right | left; right]; assumption.
Qed.

(** The checksum stage fails as soon as one character converts to NaN. *)
Lemma checksumStage_NaN (t : jsstring) (c : char16) :
  In c t -> Number_of_unit c = None ->
  checksumStage t = E.Left "Invalid UPC or EAN."%string.
Proof.
  intros Hin Hnan.
  destruct (exists_last (l := t)) as (init & x & ->); [now destruct t|].
  unfold checksumStage.
  replace (split_then_Number (init ++ [x]))
    with (List.map Number_of_unit init ++ [Number_of_unit x])
    by (unfold split_then_Number; rewrite map_app; now destruct init).
  rewrite rev_app_distr. cbn [rev app RA.head O.getOrElse].
  unfold RA.dropRight. rewrite length_app. cbn [length].
  replace (length (List.map Number_of_unit init) + 1 - 1)%nat
    with (length (List.map Number_of_unit init) + 0)%nat by lia.
  rewrite take_app_add, take_0, app_nil_r, partitionWithIndex_parity.
  apply in_app_or in Hin as [Hin | [-> | []]].
  - assert (HinN : In None (List.map Number_of_unit init)).
    { rewrite <- Hnan. now apply in_map. }
    destruct (uninterleave_In _ _ HinN) as [He | Ho].
    + rewrite (reduce_int_add_NaN (at_even _)) by assumption.
      now destruct (RA.reduce _ _ (at_odd _)).
    + rewrite (reduce_int_add_NaN (at_odd _)) by assumption. reflexivity.
  - rewrite Hnan. unfold int_strict_ne. now destruct (int_sub _ _).
Qed.

(** X5: a value holding one character that is neither a decimal digit nor
    white space is rejected, wherever that character sits and whatever
    digits surround it. *)
Theorem upc_foreign_character_rejected (s : jsstring) (c : char16) :
  In c s -> isDigit c = false -> isStrWhiteSpaceChar c = false ->
  validateUpcOrEan s tt = E.Left malformed_upc \/
  validateUpcOrEan s tt = E.Left invalid_upc.
Proof.
  intros Hin Hd Hw.
  assert (Hnan : Number_of_unit c = None).
  { unfold Number_of_unit. now rewrite Hd, Hw. }
  destruct (fst (test (regexp_literal pat_digits_12_13 true) s)) eqn:Hfmt.
  - right. rewrite validateUpcOrEan_well_formed by assumption.
    rewrite (checksumStage_NaN (pad13 s) c); [reflexivity | | assumption].
    unfold pad13. destruct (_ =? _)%nat; [right|]; assumption.
  - left. now apply validateUpcOrEan_malformed.
Qed.

Lemma upc_foreign_character_rejected_witness :
  validateUpcOrEan (str "EAN 4006381333931") tt = E.Left malformed_upc \/
  validateUpcOrEan (str "EAN 4006381333931") tt = E.Left invalid_upc.
Proof.
  refine (upc_foreign_character_rejected (str "EAN 4006381333931") 69%N
            _ eq_refl eq_refl).
  left. reflexivity.
Defined.

(** X6: a success of the validator returns the value it was given, behind a
    leading 0 when the value has exactly 12 characters, and nothing else:
    the run of digits the format test found is not cut out of the value. *)
Theorem upc_success_is_the_input (s v : jsstring) :
  validateUpcOrEan s tt = E.Right v ->
  v = pad13 s /\ has_digit_run s /\ (12 <= length s)%nat.
Proof.
  intros H.
  destruct (fst (test (regexp_literal pat_digits_12_13 true) s)) eqn:Hfmt.
  - pose proof (proj1 (format_test_iff_digit_run s) Hfmt) as Hrun.
    rewrite validateUpcOrEan_well_formed in H by assumption.
    unfold checksumStage in H.
    destruct (RA.partitionWithIndex _ _) as [ev od].
    destruct (int_strict_ne _ _); cbn in H; [discriminate|].
    injection H as <-. repeat split; [assumption|].
    destruct Hrun as (pre & run & post & -> & Hlen & _).
    rewrite !length_app. lia.
  - rewrite validateUpcOrEan_malformed in H by assumption. discriminate.
Qed.

Lemma upc_success_is_the_input_witness :
  str "0036000291452" = pad13 (str "036000291452") /\
  has_digit_run (str "036000291452") /\
  (12 <= length (str "036000291452"))%nat.
Proof.
  exact (upc_success_is_the_input (str "036000291452") (str "0036000291452")
           eq_refl).
Defined.

(** ** The regular-expression validator *)

Lemma validateRegex_test (value : jsstring) (regex : RegExp) :
  validateRegex value regex =
  (if fst (test regex value)
   then E.Right value
   else E.Left [mkMessage [TStr "Value does not meet required format."]
                  warn validate],
   snd (test regex value)).
Proof. unfold validateRegex. now destruct (test regex value) as [[|] R']. Qed.

Lemma run_length_le (c : char16 -> bool) (t : jsstring) :
  (run_length c t <= length t)%nat.
Proof. induction t as [|x t IH]; cbn; [lia|]. destruct (c x); cbn; lia. Qed.

(** A match that starts inside the string takes at least [lo] characters
    and ends inside the string. *)
Lemma matcher_bounds (p : pattern) (S : jsstring) (i e : nat) :
  matcher p S i = Some e -> (i <= length S)%nat ->
  (i + lo p <= e <= length S)%nat.
Proof.
  unfold matcher. intros H Hi.
  pose proof (run_length_le (cls p) (drop i S)) as Hrun.
  rewrite length_drop in Hrun.
  destruct (lo p <=? _)%nat eqn:E; [|discriminate].
  apply Nat.leb_le in E. injection H as <-.
  destruct (hi p); lia.
Qed.

(** What [test] finds, started at [start]: the end of a match that begins at
    or after [start]. *)
Lemma test_found (R : RegExp) (S : jsstring) (start e : nat) :
  (if (length S <? start)%nat then None
   else if sticky R then matcher (source R) S start
   else search (source R) S start (Datatypes.S (length S) - start)) = Some e ->
  (start + lo (source R) <= e <= length S)%nat.
Proof.
  destruct (length S <? start)%nat eqn:Hlt; [discriminate|].
  apply Nat.ltb_ge in Hlt.
  destruct (sticky R).
  - intros H. now apply matcher_bounds in H.
  - intros H. apply search_found in H as (j & Hj & Hm).
    apply matcher_bounds in Hm; lia.
Qed.

(** Where an invocation leaves [lastIndex] when the RegExp has the global or
    the sticky flag. *)
Lemma lastIndex_after_invocation (value : jsstring) (regex : RegExp) :
  global regex || sticky regex = true ->
  let after := snd (validateRegex value regex) in
  (lastIndex after <= length value)%nat /\
  (E.isLeft (fst (validateRegex value regex)) = true ->
   lastIndex after = 0%nat) /\
  (E.isLeft (fst (validateRegex value regex)) = false ->
   (lastIndex regex + lo (source regex) <= lastIndex after)%nat).
Proof.
  intros Hst. rewrite validateRegex_test. cbn [fst snd].
  unfold test. rewrite Hst.
  destruct (if (length value <? lastIndex regex)%nat then _ else _)
    as [e|] eqn:Hfound; cbn [fst snd lastIndex set_lastIndex E.isLeft].
  - apply test_found in Hfound. repeat split; try discriminate; lia.
  - repeat split; try discriminate; lia.
Qed.

(** X7: for a RegExp whose pattern is one character class repeated between
    [lo] and [hi] times (the shape of both literals of the file), with the
    global or the sticky flag: an invocation leaves [lastIndex] inside the
    value, whatever it was before; a successful invocation moves it forward
    by at least [lo], and a failing invocation puts it back to 0. *)
Theorem validateRegex_lastIndex (value : jsstring) (regex : RegExp) :
  global regex || sticky regex = true ->
  let after := snd (validateRegex value regex) in
  (lastIndex after <= length value)%nat /\
  (E.isLeft (fst (validateRegex value regex)) = true ->
   lastIndex after = 0%nat) /\
  (E.isLeft (fst (validateRegex value regex)) = false ->
   (lastIndex regex + lo (source regex) <= lastIndex after)%nat).
Proof. apply lastIndex_after_invocation. Qed.

Lemma validateRegex_lastIndex_witness :
  (lastIndex (snd (validateRegex (str "a b")
                     (regexp_literal pat_no_space_plus true))) <= 3)%nat.
Proof.
  exact (proj1 (validateRegex_lastIndex (str "a b")
                  (regexp_literal pat_no_space_plus true) eq_refl)).
Defined.

Lemma validateRegex_keeps_pattern (value : jsstring) (regex : RegExp) :
  source (snd (validateRegex value regex)) = source regex /\
  global (snd (validateRegex value regex)) = global regex /\
  sticky (snd (validateRegex value regex)) = sticky regex.
Proof.
  rewrite validateRegex_test. cbn [snd]. unfold test.
  destruct (if (length value <? _)%nat then _ else _);
    destruct (global regex || sticky regex); cbn; auto.
Qed.

Lemma invoke_times_fails (n : nat) (value : jsstring) (regex : RegExp) :
  global regex || sticky regex = true ->
  (1 <= lo (source regex))%nat ->
  (length value < lastIndex regex + Datatypes.S n)%nat ->
  existsb E.isLeft (invoke_times (Datatypes.S n) value regex) = true.
Proof.
  revert regex. induction n as [|n IH]; intros regex Hst Hlo Hlen;
    pose proof (lastIndex_after_invocation value regex Hst) as (Hle & _ & Hok);
    cbn [invoke_times existsb];
    destruct (E.isLeft (fst (validateRegex value regex))) eqn:Hres;
    try reflexivity; specialize (Hok eq_refl).
  - lia.
  - cbn [orb].
    destruct (validateRegex_keeps_pattern value regex) as (Hs & Hg & Hy).
    apply IH.
    + now rewrite Hg, Hy.
    + now rewrite Hs.
    + lia.
Qed.

(** X8: for a RegExp whose pattern is one character class repeated at least
    once ([lo >= 1], as in the no-spaces literal), with the global or the
    sticky flag, the thunk cannot succeed on and on: among any
    [length value + 1] successive invocations at least one fails, whatever
    the value is. *)
Theorem validateRegex_stateful_fails_in_time (value : jsstring)
    (regex : RegExp) :
  global regex || sticky regex = true ->
  (1 <= lo (source regex))%nat ->
  existsb E.isLeft
    (invoke_times (Datatypes.S (length value)) value regex) = true.
Proof. intros Hst Hlo. apply invoke_times_fails; [assumption.. | lia]. Qed.

Lemma validateRegex_stateful_fails_in_time_witness :
  existsb E.isLeft
    (invoke_times 4 (str "a b") (regexp_literal pat_no_space_plus true)) = true.
Proof.
  exact (validateRegex_stateful_fails_in_time (str "a b")
           (regexp_literal pat_no_space_plus true) eq_refl (le_n 1)).
Defined.



(** On a RegExp whose [lastIndex] is 0 the search covers the whole value: it
    succeeds exactly when the pattern matches somewhere. *)
Lemma fresh_test_iff (p : pattern) (g : bool) (S : jsstring) :
  fst (test (regexp_literal p g) S) = true <->
  exists j e, (j <= length S)%nat /\ matcher p S j = Some e.
Proof.
  unfold test, regexp_literal. cbn [global sticky lastIndex source].
  rewrite orb_false_r.
  replace (if g then 0%nat else 0%nat) with 0%nat by now destruct g.
  replace (length S <? 0)%nat with false by (symmetry; apply Nat.ltb_ge; lia).
  rewrite Nat.sub_0_r.
  destruct (search p S 0 _) as [e|] eqn:Hs; cbn [fst]; split;
    try discriminate; try reflexivity.
  - intros _. apply search_found in Hs as (j & Hj & Hm).
    exists j, e. split; [lia | assumption].
  - intros (j & e & Hj & Hm). exfalso.
    pose proof (search_not_found _ _ _ _ Hs j ltac:(lia)). congruence.
Qed.

Lemma no_space_matcher (S : jsstring) (j : nat) :
  (exists e, matcher pat_no_space_plus S j = Some e) <->
  exists c rest, drop j S = c :: rest /\ c <> 32%N.
Proof.
  unfold matcher. cbn [cls lo hi pat_no_space_plus].
  destruct (drop j S) as [|c rest]; cbn [run_length].
  - split; [intros [e [=]] | intros (c & rest & [=] & _)].
  - destruct (N.eqb_spec c 32) as [->|Hne]; cbn [negb].
    + split; [intros [e [=]] | intros (c & rest' & [= <- _] & Hc); easy].
    + split; [intros _; eauto | intros _; eauto].
Qed.

Lemma fresh_no_space_iff (g : bool) (value : jsstring) :
  fst (test (regexp_literal pat_no_space_plus g) value) = true <->
  exists c, In c value /\ c <> 32%N.
Proof.
  rewrite fresh_test_iff. split.
  - intros (j & e & Hj & Hm).
    destruct (proj1 (no_space_matcher value j)) as (c & rest & Hd & Hc);
      [eauto|].
    exists c. split; [|assumption].
    rewrite <- (take_drop j value), Hd. apply in_or_app. right. now left.
  - intros (c & Hin & Hc).
    apply in_split in Hin as (pre & post & ->).
    destruct (proj2 (no_space_matcher (pre ++ c :: post) (length pre)))
      as [e He].
    { exists c, post. split; [apply drop_app_length | assumption]. }
    exists (length pre), e. split; [rewrite length_app; lia | assumption].
Qed.

(** X10: the check the sheets call ensureNoSpaces, run on a RegExp fresh
    from its literal, accepts every value that holds at least one character
    other than a space, spaces or not, and rejects only the empty value and
    the values made of spaces alone. *)
Theorem ensureNoSpaces_accepts_iff (value : jsstring) :
  fst (validateRegex value (regexp_literal pat_no_space_plus true)) =
    E.Right value <->
  exists c, In c value /\ c <> 32%N.
Proof.
  rewrite validateRegex_test. cbn [fst].
  rewrite <- (fresh_no_space_iff true).
  destruct (fst (test _ value)); split; try discriminate; reflexivity.
Qed.

(** ** The numeric validators *)

Lemma num_le_trans (a b c : number) :
  num_le a b = true -> num_le b c = true -> num_le a c = true.
Proof.
  destruct a as [| | |x], b as [| | |y], c as [| | |z]; cbn;
    try discriminate; try reflexivity.
  rewrite !Qle_bool_iff. apply Qle_trans.
Qed.

Lemma num_le_of_Z (a b : Z) :
  num_le (num_of_Z a) (num_of_Z b) = true <-> a <= b.
Proof.
  unfold num_of_Z. cbn. now rewrite Qle_bool_iff, <- Zle_Qle.
Qed.

(** [v % 1 === 0] holds of the finite values that are whole. *)
Lemma rem1_is_zero_iff (v : number) :
  rem1_is_zero v = true <-> exists q z, v = Fin q /\ q == inject_Z z.
Proof.
  destruct v as [| | |q]; cbn [rem1_is_zero];
    try (split; [discriminate | intros (q & z & [=] & _)]).
  rewrite Z.eqb_eq, Z.rem_divide by discriminate. split.
  - intros [z Hz]. exists q, z. split; [reflexivity|].
    unfold Qeq. cbn. lia.
  - intros (q' & z & [= <-] & Hq). exists z.
    unfold Qeq in Hq. cbn in Hq. lia.
Qed.

(** X11: the whole-number validator accepts exactly the finite values that
    are integers, of either sign and of any size; NaN and the infinities are
    rejected. *)
Theorem validateWholeNumber_accepts_iff (v : number) :
  validateWholeNumber v tt = E.Right v <->
  exists q z, v = Fin q /\ q == inject_Z z.
Proof.
  rewrite <- rem1_is_zero_iff. unfold validateWholeNumber.
  destruct (rem1_is_zero v); split; try discriminate; reflexivity.
Qed.

(** X12: when the range validator accepts a value, the lower bound is not
    above the upper bound and neither bound nor the value is NaN: a range
    given upside down, or with a NaN bound, rejects every value. *)
Theorem validateRangeInclusive_accepts_only_in_order (min max v w : number) :
  validateRangeInclusive min max v tt = E.Right w ->
  w = v /\ num_le min max = true /\ v <> NaN /\ min <> NaN /\ max <> NaN.
Proof.
  unfold validateRangeInclusive, num_ge.
  destruct (num_le min v) eqn:H1, (num_le v max) eqn:H2; cbn;
    try discriminate.
  intros [= <-]. split; [reflexivity|].
  split; [now apply (num_le_trans min v max)|].
  destruct min, max, v; cbn in H1, H2; try discriminate;
    repeat split; discriminate.
Qed.

Lemma validateRangeInclusive_accepts_only_in_order_witness :
  num_of_Z 3 = num_of_Z 3 /\ num_le (num_of_Z 1) (num_of_Z 5) = true /\
  num_of_Z 3 <> NaN /\ num_of_Z 1 <> NaN /\ num_of_Z 5 <> NaN.
Proof.
  exact (validateRangeInclusive_accepts_only_in_order
           (num_of_Z 1) (num_of_Z 5) (num_of_Z 3) (num_of_Z 3) eq_refl).
Defined.

(** X13: the two checks of the rating field, whole number and between 1 and
    5, both pass exactly on the values 1, 2, 3, 4 and 5. *)
Theorem rating_checks_pass_iff (v : number) :
  validateWholeNumber v tt = E.Right v /\
  validateRangeInclusive (num_of_Z 1) (num_of_Z 5) v tt = E.Right v <->
  exists q z, v = Fin q /\ q == inject_Z z /\ 1 <= z <= 5.
Proof.
  assert (Hw : validateWholeNumber v tt = E.Right v <->
               exists q z, v = Fin q /\ q == inject_Z z).
  { rewrite <- rem1_is_zero_iff. unfold validateWholeNumber.
    destruct (rem1_is_zero v); split; try discriminate; reflexivity. }
  rewrite Hw. clear Hw.
  unfold validateRangeInclusive, num_ge. split.
  - intros [(q & z & -> & Hq) Hr]. exists q, z. repeat split; try assumption.
    + destruct (num_le (num_of_Z 1) (Fin q)) eqn:H1; [|discriminate].
      cbn in H1. rewrite Qle_bool_iff, Hq, <- Zle_Qle in H1. exact H1.
    + destruct (num_le (num_of_Z 1) (Fin q)); [|discriminate].
      destruct (num_le (Fin q) (num_of_Z 5)) eqn:H2; [|discriminate].
      cbn in H2. rewrite Qle_bool_iff, Hq, <- Zle_Qle in H2. exact H2.
  - intros (q & z & -> & Hq & Hz). split; [eauto|].
    assert (H1 : num_le (num_of_Z 1) (Fin q) = true).
    { cbn. rewrite Qle_bool_iff, Hq, <- Zle_Qle. lia. }
    assert (H2 : num_le (Fin q) (num_of_Z 5) = true).
    { cbn. rewrite Qle_bool_iff, Hq, <- Zle_Qle. lia. }
    now rewrite H1, H2.
Qed.

(** X14: a value the positivity validator accepts is not NaN, and every
    value at or above it is accepted too, positive infinity included. *)
Theorem validatePositive_upward_closed (v : number) :
  validatePositive v tt = E.Right v ->
  v <> NaN /\
  forall w, num_le v w = true -> validatePositive w tt = E.Right w.
Proof.
  unfold validatePositive, num_ge.
  destruct (num_le lit_0_01 v) eqn:H1; [|discriminate].
  intros _. split.
  - intros ->. discriminate.
  - intros w H2. now rewrite (num_le_trans _ _ _ H1 H2).
Qed.

Lemma validatePositive_upward_closed_witness :
  num_of_Z 1 <> NaN /\ validatePositive PosInf tt = E.Right PosInf.
Proof.
  split.
  - exact (proj1 (validatePositive_upward_closed (num_of_Z 1) eq_refl)).
  - exact (proj2 (validatePositive_upward_closed (num_of_Z 1) eq_refl)
                 PosInf eq_refl).
Defined.

(** ** More on the sequencer *)

Lemma all_ok_successes {T} (rs : list (ValidationResult T)) :
  all_ok rs = true -> rs = List.map E.Right (successes rs).
Proof.
  induction rs as [|[issues|v] rs IH]; cbn; [reflexivity | discriminate |].
  intros H. f_equal. now apply IH.
Qed.

Lemma successes_map_Right {T} (vs : list T) :
  all_ok (List.map (@E.Right (list Message) T) vs) = true /\
  successes (List.map (@E.Right (list Message) T) vs) = vs.
Proof.
  induction vs as [|v vs [IH1 IH2]]; [split; reflexivity|].
  split; [exact IH1 | cbn; now rewrite IH2].
Qed.

(** X15: the sequencer answers with the success [vs] exactly when its inputs
    are, one by one and in order, the successes of the values [vs]; so a
    success holds one value per input. *)
Theorem sequenceValidationT_success_iff {T} (r : ValidationResult T)
    (rs : list (ValidationResult T)) (vs : list T) :
  sequenceValidationT r rs = E.Right vs <-> r :: rs = List.map E.Right vs.
Proof.
  rewrite sequenceValidationT_eq. split.
  - destruct (all_ok (r :: rs)) eqn:Hok; [|discriminate].
    intros [= <-]. exact (all_ok_successes (r :: rs) Hok).
  - intros ->. destruct (successes_map_Right vs) as [-> ->]. reflexivity.
Qed.

Lemma failure_issues_nonempty {T} (rs : list (ValidationResult T)) :
  Forall (fun x => x <> E.Left []) rs -> all_ok rs = false ->
  failure_issues rs <> [].
Proof.
  induction 1 as [|[issues|v] rs Hx Hrs IH]; [discriminate| |].
  - intros _. rewrite failure_issues_cons_left.
    destruct issues; [congruence | discriminate].
  - exact IH.
Qed.

(** X16: the sequencer keeps failures non-empty: when no input is a failure
    without issues, a failure it answers with has at least one issue, and
    it has exactly the issues of the inputs. *)
Theorem sequenceValidationT_failure_nonempty {T} (r : ValidationResult T)
    (rs : list (ValidationResult T)) (issues : list Message) :
  Forall (fun x => x <> E.Left []) (r :: rs) ->
  sequenceValidationT r rs = E.Left issues ->
  issues <> [] /\
  forall m, In m issues <->
            exists x, In x (r :: rs) /\ E.isLeft x = true /\ In m (issuesOf x).
Proof.
  intros Hne. rewrite sequenceValidationT_eq.
  destruct (all_ok (r :: rs)) eqn:Hok; [discriminate|].
  intros [= <-]. split; [now apply failure_issues_nonempty|].
  intros m. unfold failure_issues, failing.
  rewrite in_concat. split.
  - intros (l & Hl & Hm). apply in_map_iff in Hl as (x & <- & Hx).
    apply filter_In in Hx as [Hx Hleft]. eauto.
  - intros (x & Hx & Hleft & Hm). exists (issuesOf x).
    split; [|assumption]. apply in_map, filter_In. auto.
Qed.

Lemma sequenceValidationT_failure_nonempty_witness :
  invalid_upc ++ malformed_upc <> [].
Proof.
  refine (proj1 (sequenceValidationT_failure_nonempty
                   (E.Left invalid_upc)
                   [E.Right (str "x"); E.Left malformed_upc]
                   (invalid_upc ++ malformed_upc) _ eq_refl)).
  repeat constructor; discriminate.
Defined.

(** ** More on the record hooks *)

Lemma applied_in_order_app (fns1 fns2 : list (Hook jsresult))
    (r : FlatfileRecord) :
  applied_in_order (fns1 ++ fns2) r =
  applied_in_order fns2 (applied_in_order fns1 r).
Proof. unfold applied_in_order. apply fold_left_app. Qed.

Lemma returned_in_order_app (fns1 fns2 : list (Hook jsresult))
    (r : FlatfileRecord) :
  returned_in_order (fns1 ++ fns2) r =
  returned_in_order fns1 r ++ returned_in_order fns2 (applied_in_order fns1 r).
Proof.
  revert r. induction fns1 as [|f fns1 IH]; intros r; [reflexivity|].
  cbn [app returned_in_order]. rewrite IH. reflexivity.
Qed.

Lemma fold_eq (fns : list (Hook jsresult)) (r : FlatfileRecord) :
  fold fns r = (Array (returned_in_order fns r), applied_in_order fns r).
Proof.
  unfold fold, mbind, Hook_bind, mret, Hook_ret.
  now rewrite map_calls_in_order.
Qed.

(** X17: running [fold] on two lists of rules one after the other, the
    second on the record the first left, changes the record as one [fold]
    on the joined list does, and the joined call returns the two arrays
    joined. *)
Theorem fold_app (fns1 fns2 : list (Hook jsresult)) (r : FlatfileRecord) :
  snd (fold (fns1 ++ fns2) r) = snd (fold fns2 (snd (fold fns1 r))) /\
  forall rs1 rs2,
    fst (fold fns1 r) = Array rs1 ->
    fst (fold fns2 (snd (fold fns1 r))) = Array rs2 ->
    fst (fold (fns1 ++ fns2) r) = Array (rs1 ++ rs2).
Proof.
  rewrite !fold_eq. cbn [fst snd].
  split; [apply applied_in_order_app|].
  intros rs1 rs2 [= <-] [= <-]. now rewrite returned_in_order_app.
Qed.

Lemma fold_app_witness :
  fst (fold ([requiredFields] ++ [requiredFields]) (mkRecord ∅ [])) =
  Array ([TheRecord] ++ [TheRecord]).
Proof.
  exact (proj2 (fold_app [requiredFields] [requiredFields] (mkRecord ∅ []))
               [TheRecord] [TheRecord] eq_refl eq_refl).
Defined.

(** X18: what every rule of a list keeps, [fold] keeps: if each rule leaves
    the field values alone and only adds annotations behind the ones
    present, so does the whole run. *)
Theorem fold_only_appends (fns : list (Hook jsresult)) (r : FlatfileRecord) :
  Forall (fun f => forall x, data (snd (f x)) = data x /\
                             exists added, info (snd (f x)) = info x ++ added)
         fns ->
  data (snd (fold fns r)) = data r /\
  exists added, info (snd (fold fns r)) = info r ++ added.
Proof.
  rewrite fold_eq. cbn [snd]. intros H. revert r.
  induction H as [|f fns Hf Hfns IH]; intros r.
  - split; [reflexivity|]. exists []. now rewrite app_nil_r.
  - change (applied_in_order (f :: fns) r)
      with (applied_in_order fns (snd (f r))).
    destruct (IH (snd (f r))) as (Hd & added2 & Hi).
    destruct (Hf r) as (Hd1 & added1 & Hi1).
    split; [congruence|]. exists (added1 ++ added2).
    now rewrite Hi, Hi1, app_assoc.
Qed.

Lemma requiredFields_only_appends (x : FlatfileRecord) :
  data (snd (requiredFields x)) = data x /\
  exists added, info (snd (requiredFields x)) = info x ++ added.
Proof.
  rewrite requiredFields_by_field.
  destruct (data x !! "page_id") as [v|]; [destruct (isNil v)|]; cbn;
    (split; [reflexivity|]); eauto; exists []; now rewrite app_nil_r.
Qed.

Lemma fold_only_appends_witness :
  data (snd (recordCompute (mkRecord {["page_id" := VNull]} []))) =
    {["page_id" := VNull]} /\
  exists added,
    info (snd (recordCompute (mkRecord {["page_id" := VNull]} []))) =
    [] ++ added.
Proof.
  refine (fold_only_appends [requiredFields]
            (mkRecord {["page_id" := VNull]} []) _).
  constructor; [exact requiredFields_only_appends | constructor].
Defined.

(** X19: the record hook of the sheets is not idempotent on a record that
    has the field [page_id] with the value null or undefined: every run adds
    the annotation once more, so [n] runs leave [n] copies of it. On every
    other record, one whose [page_id] has a value and one that does not have
    the field, no run changes anything. *)
Theorem recordCompute_repeated (n : nat) (r : FlatfileRecord) :
  Nat.iter n (fun x => snd (recordCompute x)) r =
  if isNil (fst (get "page_id" r)) && verifyField "page_id" r
  then mkRecord (data r) (info r ++ repeat page_id_required n)
  else r.
Proof.
  assert (Hstep : forall x, snd (recordCompute x) = snd (requiredFields x)).
  { intros x. unfold recordCompute. rewrite fold_eq. reflexivity. }
  assert (Hcase : isNil (fst (get "page_id" r)) && verifyField "page_id" r =
                  match data r !! "page_id" with
                  | Some v => isNil v
                  | None => false
                  end).
  { unfold get, verifyField. cbn [fst].
    destruct (data r !! "page_id") as [v|]; cbn; [apply andb_true_r|reflexivity]. }
  rewrite Hcase. clear Hcase.
  induction n as [|n IH].
  - cbn. destruct (data r !! "page_id") as [v|]; [|reflexivity].
    destruct (isNil v); [|reflexivity]. rewrite app_nil_r. now destruct r.
  - rewrite Nat.iter_succ, Hstep, IH, requiredFields_by_field.
    destruct (data r !! "page_id") as [v|] eqn:E; [|now rewrite E].
    destruct (isNil v) eqn:Hv.
    + cbn [data info]. rewrite E, Hv, <- app_assoc. do 2 f_equal.
      change [page_id_required] with (repeat page_id_required 1).
      rewrite <- repeat_app. f_equal. lia.
    + now rewrite E, Hv.
Qed.

(** ** Trimming *)

Lemma trimStart_clean (s : jsstring) : starts_clean (trimStart s) = true.
Proof.
  induction s as [|c s IH]; [reflexivity|]. cbn [trimStart].
  destruct (isStrWhiteSpaceChar c) eqn:Hc; [exact IH|].
  cbn. now rewrite Hc.
Qed.

Lemma trimStart_id (s : jsstring) : starts_clean s = true -> trimStart s = s.
Proof.
  destruct s as [|c s]; [reflexivity|]. cbn.
  now destruct (isStrWhiteSpaceChar c).
Qed.

Lemma trimStart_split (s : jsstring) :
  exists pre, s = pre ++ trimStart s /\ forallb isStrWhiteSpaceChar pre = true.
Proof.
  induction s as [|c s (pre & Hs & Hpre)]; [now exists []|].
  cbn [trimStart]. destruct (isStrWhiteSpaceChar c) eqn:Hc.
  - exists (c :: pre). cbn. rewrite Hc, Hpre. split; [congruence|reflexivity].
  - now exists [].
Qed.

Lemma trimEnd_clean (s : jsstring) : ends_clean (trimEnd s) = true.
Proof.
  unfold ends_clean, trimEnd. rewrite rev_involutive. apply trimStart_clean.
Qed.

Lemma trimEnd_id (s : jsstring) : ends_clean s = true -> trimEnd s = s.
Proof.
  unfold ends_clean, trimEnd. intros H.
  rewrite trimStart_id by assumption. apply rev_involutive.
Qed.

Lemma trimEnd_split (s : jsstring) :
  exists post,
    s = trimEnd s ++ post /\ forallb isStrWhiteSpaceChar post = true.
Proof.
  destruct (trimStart_split (rev s)) as (pre & Hs & Hpre).
  exists (rev pre). split.
  - unfold trimEnd. rewrite <- rev_app_distr, <- Hs. symmetry.
    apply rev_involutive.
  - rewrite forallb_forall in *. intros x Hx. apply Hpre.
    now apply in_rev.
Qed.

Lemma trimEnd_starts_clean (s : jsstring) :
  starts_clean s = true -> starts_clean (trimEnd s) = true.
Proof.
  intros H. destruct (trimEnd_split s) as (post & Hs & _).
  destruct (trimEnd s) as [|c t]; [reflexivity|].
  rewrite Hs in H. exact H.
Qed.

Lemma trim_clean (s : jsstring) :
  starts_clean (trim s) = true /\ ends_clean (trim s) = true.
Proof.
  unfold trim. split; [|apply trimEnd_clean].
  apply trimEnd_starts_clean, trimStart_clean.
Qed.

Lemma trim_split (s : jsstring) :
  exists pre post,
    s = pre ++ trim s ++ post /\
    forallb isStrWhiteSpaceChar pre = true /\
    forallb isStrWhiteSpaceChar post = true.
Proof.
  destruct (trimStart_split s) as (pre & Hs & Hpre).
  destruct (trimEnd_split (trimStart s)) as (post & Ht & Hpost).
  exists pre, post. unfold trim. now rewrite <- Ht.
Qed.

(** X20: trimming takes away white space at the two ends and nothing else:
    the value is the trimmed value between two runs of white space, and the
    trimmed value neither begins nor ends with white space. *)
Theorem trim_removes_the_ends (s : jsstring) :
  (exists pre post,
     s = pre ++ trim s ++ post /\
     forallb isStrWhiteSpaceChar pre = true /\
     forallb isStrWhiteSpaceChar post = true) /\
  starts_clean (trim s) = true /\ ends_clean (trim s) = true.
Proof. split; [apply trim_split | apply trim_clean]. Qed.

(** X21: trimming twice is trimming once, and a value with no white space at
    its ends is left as it is. *)
Theorem trim_idempotent (s : jsstring) :
  trim (trim s) = trim s /\
  (starts_clean s = true -> ends_clean s = true -> trim s = s).
Proof.
  assert (Hid : forall u, starts_clean u = true -> ends_clean u = true ->
                          trim u = u).
  { intros u H1 H2. unfold trim. rewrite (trimStart_id u H1).
    now apply trimEnd_id. }
  split; [|apply Hid].
  destruct (trim_clean s) as [H1 H2]. now apply Hid.
Qed.

Lemma trim_idempotent_witness : trim (str "B00X") = str "B00X".
Proof.
  exact (proj2 (trim_idempotent (str "B00X")) eq_refl eq_refl).
Defined.

Lemma trim_length (s : jsstring) : (length (trim s) <= length s)%nat.
Proof.
  destruct (trim_split s) as (pre & post & Hs & _).
  rewrite Hs at 2. rewrite !length_app. lia.
Qed.

(** X22: a value within the length limit is still within it once trimmed:
    the computation of a text field never turns a value that passes the
    max-length check into one that fails it. *)
Theorem validateMaxLength_after_trim (len : number) (value : jsstring) :
  validateMaxLength len value tt = E.Right value ->
  validateMaxLength len (trim value) tt = E.Right (trim value).
Proof.
  unfold validateMaxLength.
  destruct (num_le (num_of_nat (length value)) len) eqn:H; [|discriminate].
  intros _.
  assert (Hle : num_le (num_of_nat (length (trim value)))
                       (num_of_nat (length value)) = true).
  { apply num_le_of_Z. pose proof (trim_length value). lia. }
  now rewrite (num_le_trans _ _ _ Hle H).
Qed.

Lemma validateMaxLength_after_trim_witness :
  validateMaxLength (num_of_nat 6) (trim (str " B00X ")) tt =
  E.Right (trim (str " B00X ")).
Proof.
  exact (validateMaxLength_after_trim (num_of_nat 6) (str " B00X ") eq_refl).
Defined.

(** X23: on a trimmed value the check the sheets call ensureNoSpaces, run on
    a RegExp fresh from its literal, fails only when nothing is left of the
    value; spaces inside the value do not make it fail. *)
Theorem ensureNoSpaces_after_trim (value : jsstring) :
  fst (validateRegex (trim value) (regexp_literal pat_no_space_plus true)) =
    E.Right (trim value) <->
  trim value <> [].
Proof.
  rewrite validateRegex_test. cbn [fst].
  assert (H : fst (test (regexp_literal pat_no_space_plus true) (trim value))
              = true <-> trim value <> []).
  { rewrite fresh_no_space_iff. destruct (trim_clean value) as [Hc _].
    destruct (trim value) as [|c t]; split.
    - intros (c & [] & _).
    - congruence.
    - intros _. discriminate.
    - intros _. exists c. split; [now left|].
      intros ->. discriminate. }
  destruct (fst (test _ (trim value))); split; intros H'.
  - now apply H.
  - reflexivity.
  - discriminate.
  - destruct H as [_ H]. specialize (H H'). discriminate.
Qed.
